(** * NAS_SFTP_API: the image classifier, the directory indexer and the
      random-image handler of [main.go], embedded in Rocq.

    Go strings are byte sequences; they are modelled by [string], whose
    characters are the 8-bit [ascii] values.  The functions of the Go
    standard library that [main.go] calls ([strings.ToLower],
    [filepath.Ext], [filepath.Base], [filepath.Clean], [filepath.Join])
    are embedded from their Unix implementations. *)

From Stdlib Require Import Ascii NArith Bool Lia DecimalString.
From Stdlib Require String.
From stdpp Require Import base gmap strings list.

Set Warnings "-register-all".

(** ** Bytes of a Go string *)

Definition bytes (s : string) : list ascii := String.list_ascii_of_string s.
Definition of_bytes (l : list ascii) : string := String.string_of_list_ascii l.

Definition byte_val (c : ascii) : N := N_of_ascii c.

(** [os.PathSeparator] and [os.IsPathSeparator] on Unix. *)
Definition Separator : ascii := "/"%char.
Definition IsPathSeparator (c : ascii) : bool := Ascii.eqb c Separator.

Definition dot : ascii := "."%char.
Definition is_dot (c : ascii) : bool := Ascii.eqb c dot.

(** ** package strings *)

Module strings.

(** [utf8.RuneSelf]: bytes below it are single-byte (ASCII) runes. *)
Definition RuneSelf : N := 128.

Definition isUpper (c : ascii) : bool :=
  (65 <=? byte_val c)%N && (byte_val c <=? 90)%N.

(** [c += 'a' - 'A'] *)
Definition lowerByte (c : ascii) : ascii :=
  if isUpper c then ascii_of_N (byte_val c + 32) else c.

(** The first loop of [ToLower]: it stops at the first byte that is not
    ASCII and otherwise records whether an upper-case letter was seen. *)
Fixpoint scan (bs : list ascii) (hasUpper : bool) : bool * bool :=
  match bs with
  | [] => (true, hasUpper)
  | c :: rest =>
      if (RuneSelf <=? byte_val c)%N then (false, hasUpper)
      else scan rest (hasUpper || isUpper c)
  end.

Section ToLower.
(** [Map(unicode.ToLower, s)], the path [ToLower] takes for a string
    with a byte outside ASCII.  The Unicode tables are not part of the
    program; every result below holds whatever this function is. *)
Variable unicodeLower : string -> string.

Definition ToLower (s : string) : string :=
  match scan (bytes s) false with
  | (true, false) => s
  | (true, true) => of_bytes (map lowerByte (bytes s))
  | (false, _) => unicodeLower s
  end.
End ToLower.

End strings.

(** A byte below [utf8.RuneSelf]. *)
Definition isASCII (c : ascii) : bool := (byte_val c <? strings.RuneSelf)%N.

(** ** package path/filepath (Unix) *)

Module filepath.

(** [Ext]: the loop runs [i] from the last byte down while [path[i]] is
    not a separator; [seen] is [path[i+1:]]. *)
Fixpoint ext_scan (rev_prefix seen : list ascii) : list ascii :=
  match rev_prefix with
  | [] => []
  | c :: before =>
      if IsPathSeparator c then []
      else if is_dot c then c :: seen
      else ext_scan before (c :: seen)
  end.

Definition Ext (path : string) : string :=
  of_bytes (ext_scan (rev (bytes path)) []).

(** [Base]: trailing separators are stripped, then the bytes after the
    last separator are kept. *)
Fixpoint strip_trailing (rev_path : list ascii) : list ascii :=
  match rev_path with
  | [] => []
  | c :: before => if IsPathSeparator c then strip_trailing before else rev_path
  end.

Fixpoint last_element (rev_path seen : list ascii) : list ascii :=
  match rev_path with
  | [] => seen
  | c :: before =>
      if IsPathSeparator c then seen else last_element before (c :: seen)
  end.

Definition Base (path : string) : string :=
  match bytes path with
  | [] => "."
  | _ =>
      match last_element (strip_trailing (rev (bytes path))) [] with
      | [] => "/"
      | elem => of_bytes elem
      end
  end.

(** [Clean].  The output buffer [out] of the Go code is kept reversed:
    its head is the byte written last and [out.w] is its length. *)

(** [out.w--; for out.w > dotdot && !IsPathSeparator(out.index(out.w)) { out.w-- }] *)
Fixpoint backtrack (out : list ascii) (dotdot : nat) : list ascii :=
  match out with
  | [] => []
  | c :: out' =>
      if (dotdot <? length out') && negb (IsPathSeparator c)
      then backtrack out' dotdot
      else out'
  end.

(** [r+k == n || IsPathSeparator(path[r+k])], on the bytes from [r+k] on *)
Definition at_element_end (rest : list ascii) : bool :=
  match rest with
  | [] => true
  | c :: _ => IsPathSeparator c
  end.

(** The loop [for r < n].  [rest] is [path[r:]]; [copying] holds while the
    inner loop of the default case is copying a path element. *)
Fixpoint clean_loop (rooted : bool) (rest : list ascii) (copying : bool)
    (out : list ascii) (dotdot : nat) : list ascii :=
  match rest with
  | [] => out
  | c :: rest1 =>
      if copying then
        if IsPathSeparator c then clean_loop rooted rest1 false out dotdot
        else clean_loop rooted rest1 true (c :: out) dotdot
      else
        let real_element :=
          let out1 :=
            if (rooted && negb (length out =? 1))
               || (negb rooted && negb (length out =? 0))
            then Separator :: out else out in
          clean_loop rooted rest1 true (c :: out1) dotdot in
        if IsPathSeparator c then
          clean_loop rooted rest1 false out dotdot
        else if is_dot c && at_element_end rest1 then
          clean_loop rooted rest1 false out dotdot
        else
          match rest1 with
          | c2 :: rest2 =>
              if is_dot c && is_dot c2 && at_element_end rest2 then
                if dotdot <? length out then
                  clean_loop rooted rest2 false (backtrack out dotdot) dotdot
                else if negb rooted then
                  let out1 := if 0 <? length out then Separator :: out else out in
                  let out2 := dot :: dot :: out1 in
                  clean_loop rooted rest2 false out2 (length out2)
                else clean_loop rooted rest2 false out dotdot
              else real_element
          | [] => real_element
          end
  end.

Definition Clean (path : string) : string :=
  match bytes path with
  | [] => "."
  | c :: rest =>
      let out :=
        if IsPathSeparator c
        then clean_loop true rest false [Separator] 1
        else clean_loop false (c :: rest) false [] 0 in
      of_bytes (rev (match out with [] => [dot] | _ => out end))
  end.

(** [strings.Join(elem, "/")] *)
Fixpoint join_sep (elem : list string) : string :=
  match elem with
  | [] => ""
  | [e] => e
  | e :: rest => e +:+ "/" +:+ join_sep rest
  end.

(** [Join]: leading empty elements are skipped, the rest is joined with
    the separator and cleaned. *)
Fixpoint Join (elem : list string) : string :=
  match elem with
  | [] => ""
  | e :: rest =>
      if String.eqb e "" then Join rest else Clean (join_sep (e :: rest))
  end.

End filepath.

(** Paths by their elements: a byte that is no separator, a path that ends
    with a separator, and a path element that [Clean] copies, which is not
    empty, has no separator and is neither [.] nor [..]. *)
Definition not_sep (c : ascii) : Prop := IsPathSeparator c = false.
Definition ends_sep (l : list ascii) : Prop := exists l', l = l' ++ [Separator].
Definition real_element (e : list ascii) : Prop :=
  e <> [] /\ List.Forall not_sep e /\ e <> [dot] /\ e <> [dot; dot].

(** ** The image classifier *)

Section Classifier.
Variable unicodeLower : string -> string.

Definition imageExts : list string :=
  [".jpg"; ".jpeg"; ".png"; ".gif"; ".bmp"; ".webp"; ".tiff"; ".tif"; ".svg"].

(** [for _, imgExt := range imageExts { if ext == imgExt { return true } }
     return false] *)
Fixpoint isImageFile_loop (ext : string) (exts : list string) : bool :=
  match exts with
  | [] => false
  | imgExt :: rest =>
      if String.eqb ext imgExt then true else isImageFile_loop ext rest
  end.

Definition isImageFile (filename : string) : bool :=
  let ext := strings.ToLower unicodeLower (filepath.Ext filename) in
  isImageFile_loop ext imageExts.

(** The arms of the [switch] of [getContentType]. *)
Inductive SwitchArm : Set :=
| CaseJpeg | CasePng | CaseGif | CaseBmp | CaseWebp | CaseTiff | CaseSvg
| CaseDefault.

Definition getContentType_switch (ext : string) : SwitchArm :=
  if String.eqb ext ".jpg" || String.eqb ext ".jpeg" then CaseJpeg
  else if String.eqb ext ".png" then CasePng
  else if String.eqb ext ".gif" then CaseGif
  else if String.eqb ext ".bmp" then CaseBmp
  else if String.eqb ext ".webp" then CaseWebp
  else if String.eqb ext ".tiff" || String.eqb ext ".tif" then CaseTiff
  else if String.eqb ext ".svg" then CaseSvg
  else CaseDefault.

Definition getContentType_return (arm : SwitchArm) : string :=
  match arm with
  | CaseJpeg => "image/jpeg"
  | CasePng => "image/png"
  | CaseGif => "image/gif"
  | CaseBmp => "image/bmp"
  | CaseWebp => "image/webp"
  | CaseTiff => "image/tiff"
  | CaseSvg => "image/svg+xml"
  | CaseDefault => "image/jpeg"
  end.

Definition getContentType (filename : string) : string :=
  let ext := strings.ToLower unicodeLower (filepath.Ext filename) in
  getContentType_return (getContentType_switch ext).

End Classifier.


(** The recognized extensions and their MIME types, as the specification
    lists them (section 4.1). *)
Definition mimeTable : list (string * string) :=
  [(".jpg", "image/jpeg"); (".jpeg", "image/jpeg"); (".png", "image/png");
   (".gif", "image/gif"); (".bmp", "image/bmp"); (".webp", "image/webp");
   (".tiff", "image/tiff"); (".tif", "image/tiff"); (".svg", "image/svg+xml")].

(** ** Errors, the remote tree accessor and the process state *)

(** A Go [error], observed through its [Error()] message. *)
Record error : Type := { Error : string }.

Inductive result (A : Type) : Type :=
| Ok (a : A)
| Err (err : error).
Arguments Ok {A} a.
Arguments Err {A} err.

(** A remote operation performed through the SFTP client. *)
Inductive RemoteOp : Type :=
| OpReadDir (path : string)
| OpOpen (path : string)
| OpReadAll (path : string)
| OpClose (path : string).

Definition newline : string := String (ascii_of_N 10) "".

Section Server.
(** [time.Time] and [t.Format(time.RFC3339)]; the rendering depends on the
    time zone of the process and is left to the environment. *)
Context {Time : Type}.
Variable Format_RFC3339 : Time -> string.
Variable unicodeLower : string -> string.

(** [os.FileInfo]: [entry.Name()], [entry.IsDir()], [entry.ModTime()]. *)
Record FileInfo : Type := { Name : string; IsDir : bool; ModTime : Time }.

(** An open [*sftp.File]: where it was opened and what [io.ReadAll] gives. *)
Record File : Type := { file_path : string; file_read : result (list Byte.byte) }.

(** [*sftp.Client]: the listing and the open of every remote path. *)
Record Client : Type :=
  { client_ReadDir : string -> result (list FileInfo);
    client_Open : string -> result File }.

Record ImageInfo : Type := { Path : string; CreationDate : Time }.

(** The package variables of [main.go] together with what the process
    does to its surroundings: the lines written to standard output, the
    remote operations issued and the numbers drawn from [math/rand].  The
    two mutexes only order concurrent accesses and have no sequential
    effect. *)
Record World : Type :=
  { directoriesWithImages : list string;
    sftpClient : Client;
    stdout : list string;
    remote : list RemoteOp;
    rand_source : nat -> nat;
    rand_drawn : nat }.

Definition set_directories (dirs : list string) (w : World) : World :=
  {| directoriesWithImages := dirs; sftpClient := sftpClient w;
     stdout := stdout w; remote := remote w;
     rand_source := rand_source w; rand_drawn := rand_drawn w |}.

Definition set_client (c : Client) (w : World) : World :=
  {| directoriesWithImages := directoriesWithImages w; sftpClient := c;
     stdout := stdout w; remote := remote w;
     rand_source := rand_source w; rand_drawn := rand_drawn w |}.

Definition Printf (line : string) (w : World) : World :=
  {| directoriesWithImages := directoriesWithImages w;
     sftpClient := sftpClient w;
     stdout := stdout w ++ [line]; remote := remote w;
     rand_source := rand_source w; rand_drawn := rand_drawn w |}.

Definition issue (op : RemoteOp) (w : World) : World :=
  {| directoriesWithImages := directoriesWithImages w;
     sftpClient := sftpClient w;
     stdout := stdout w; remote := remote w ++ [op];
     rand_source := rand_source w; rand_drawn := rand_drawn w |}.

(** Computations on the process state.  [None] stands for a run that
    does not return: a run-time panic, or a recursion that is still going
    when its fuel is spent. *)
Definition M (A : Type) : Type := World -> option (A * World).

Definition ret {A} (a : A) : M A := fun w => Some (a, w).
Definition bind {A B} (m : M A) (k : A -> M B) : M B :=
  fun w => match m w with
           | Some (a, w') => k a w'
           | None => None
           end.
Definition panic {A} : M A := fun _ => None.
Definition modify (f : World -> World) : M unit := fun w => Some (tt, f w).
Definition gets {A} (f : World -> A) : M A := fun w => Some (f w, w).

Notation "x <- m ;; k" := (bind m (fun x => k))
  (at level 90, m at level 80, k at level 200, right associativity,
   format "'[v' x  <-  m  ;; '/' k ']'").
Notation "m ;;; k" := (bind m (fun _ => k))
  (at level 90, k at level 200, right associativity,
   format "'[v' m  ;;; '/' k ']'").

Definition ReadDir (client : Client) (path : string) : M (result (list FileInfo)) :=
  modify (issue (OpReadDir path)) ;;; ret (client_ReadDir client path).

Definition Open (client : Client) (path : string) : M (result File) :=
  modify (issue (OpOpen path)) ;;; ret (client_Open client path).

Definition ReadAll (file : File) : M (result (list Byte.byte)) :=
  modify (issue (OpReadAll (file_path file))) ;;; ret (file_read file).

Definition Close (file : File) : M unit :=
  modify (issue (OpClose (file_path file))).

(** [rand.Intn(n)]: panics for [n <= 0], otherwise some number below [n].
    The generator is an arbitrary stream of numbers, reduced into range. *)
Definition draw (w : World) : World :=
  {| directoriesWithImages := directoriesWithImages w;
     sftpClient := sftpClient w;
     stdout := stdout w; remote := remote w;
     rand_source := rand_source w;
     rand_drawn := S (rand_drawn w) |}.

Definition Intn (n : nat) : M nat :=
  fun w =>
    if n =? 0 then None
    else Some (rand_source w (rand_drawn w) mod n, draw w).

(** [s[i]] on a slice: out of range is a panic. *)
Definition index {A} (s : list A) (i : nat) : M A :=
  match s !! i with
  | Some a => ret a
  | None => panic
  end.

(** ** The directory indexer *)

(** [for _, entry := range entries {
       if !entry.IsDir() && isImageFile(entry.Name()) { hasImages = true; break } }] *)
Fixpoint hasImages (entries : list FileInfo) : bool :=
  match entries with
  | [] => false
  | entry :: rest =>
      if negb (IsDir entry) && isImageFile unicodeLower (Name entry)
      then true
      else hasImages rest
  end.

(** The second loop of [listFoldersRecursively]; [recurse] is the
    recursive call [listFoldersRecursively(client, _, _)]. *)
Fixpoint descend (recurse : string -> string -> M (option error))
    (rootPath indent : string) (entries : list FileInfo) : M unit :=
  match entries with
  | [] => ret tt
  | entry :: rest =>
      (if IsDir entry then
         let fullPath := filepath.Join [rootPath; Name entry] in
         err <- recurse fullPath (indent +:+ "  ") ;;
         match err with
         | Some err =>
             modify (Printf ("Error reading " +:+ fullPath +:+ ": "
                               +:+ Error err +:+ newline))
         | None => ret tt
         end
       else ret tt) ;;;
      descend recurse rootPath indent rest
  end.

Fixpoint listFoldersRecursively (fuel : nat) (client : Client)
    (rootPath indent : string) : M (option error) :=
  match fuel with
  | 0 => panic
  | S fuel' =>
      r <- ReadDir client rootPath ;;
      match r with
      | Err err => ret (Some err)
      | Ok entries =>
          (if hasImages entries then
             modify (fun w =>
               set_directories (directoriesWithImages w ++ [rootPath]) w) ;;;
             modify (Printf (indent +:+ filepath.Base rootPath
                               +:+ "/ (contains images)" +:+ newline))
           else
             modify (Printf (indent +:+ filepath.Base rootPath
                               +:+ "/" +:+ newline))) ;;;
          descend (listFoldersRecursively fuel' client) rootPath indent entries ;;;
          ret None
      end
  end.

(** The part of [main] that installs the client and builds the index. *)
Definition main_index (fuel : nat) (client : Client) : M unit :=
  modify (set_client client) ;;;
  err <- listFoldersRecursively fuel client "/" "" ;;
  match err with
  | Some err =>
      modify (Printf ("Error listing folders: " +:+ Error err +:+ newline))
  | None => ret tt
  end.

(** ** The request handler *)

(** What a handler has written to its [*gin.Context].  [http.Header] is
    used through [Set] and [Del] only, one value per key; the keys the
    handler uses are already in canonical form. *)
Inductive Body : Type :=
| NoBody
| JSONBody (obj : gmap string string)
| DataBody (data : list Byte.byte).

Record Context : Type :=
  { status : nat; header : gmap string string; body : Body }.

Definition newContext : Context :=
  {| status := 200; header := ∅; body := NoBody |}.

Definition StatusOK : nat := 200.
Definition StatusNotFound : nat := 404.
Definition StatusInternalServerError : nat := 500.

(** [c.Header(key, value)]: an empty value deletes the key. *)
Definition c_Header (key value : string) (c : Context) : Context :=
  {| status := status c;
     header := if String.eqb value "" then delete key (header c)
               else <[key := value]> (header c);
     body := body c |}.

Definition c_Status (code : nat) (c : Context) : Context :=
  {| status := code; header := header c; body := body c |}.

(** The renderers of gin set [Content-Type] only when it is not set yet. *)
Definition writeContentType (value : string) (h : gmap string string)
    : gmap string string :=
  match h !! "Content-Type" with
  | Some _ => h
  | None => <["Content-Type" := value]> h
  end.

Definition c_JSON (code : nat) (obj : gmap string string) (c : Context) : Context :=
  {| status := code;
     header := writeContentType "application/json; charset=utf-8" (header c);
     body := JSONBody obj |}.

Definition c_Data (code : nat) (contentType : string) (data : list Byte.byte)
    (c : Context) : Context :=
  {| status := code;
     header := writeContentType contentType (header c);
     body := DataBody data |}.

(** [gin.H{"error": msg}] *)
Definition gin_H_error (msg : string) : gmap string string :=
  {[ "error" := msg ]}.

(** [for _, entry := range entries {
       if !entry.IsDir() && isImageFile(entry.Name()) {
         images = append(images, ImageInfo{...}) } }] *)
Fixpoint collectImages (randomDir : string) (entries : list FileInfo)
    (images : list ImageInfo) : list ImageInfo :=
  match entries with
  | [] => images
  | entry :: rest =>
      if negb (IsDir entry) && isImageFile unicodeLower (Name entry) then
        let fullPath := filepath.Join [randomDir; Name entry] in
        collectImages randomDir rest
          (images ++ [{| Path := fullPath; CreationDate := ModTime entry |}])
      else collectImages randomDir rest images
  end.

Definition getRandomImage (c : Context) : M Context :=
  dirs <- gets directoriesWithImages ;;
  if length dirs =? 0 then
    ret (c_JSON StatusNotFound
           (gin_H_error "No directories with images found") c)
  else
    dirs <- gets directoriesWithImages ;;
    i <- Intn (length dirs) ;;
    randomDir <- index dirs i ;;
    client <- gets sftpClient ;;
    r <- ReadDir client randomDir ;;
    match r with
    | Err err =>
        ret (c_JSON StatusInternalServerError
               (gin_H_error ("Failed to read directory: " +:+ Error err)) c)
    | Ok entries =>
        let images := collectImages randomDir entries [] in
        if length images =? 0 then
          ret (c_JSON StatusNotFound
                 (gin_H_error "No images found in selected directory") c)
        else
          j <- Intn (length images) ;;
          randomImage <- index images j ;;
          r <- Open client (Path randomImage) ;;
          match r with
          | Err err =>
              ret (c_JSON StatusInternalServerError
                     (gin_H_error ("Failed to open image file: " +:+ Error err)) c)
          | Ok file =>
              r <- ReadAll file ;;
              match r with
              | Err err =>
                  Close file ;;;
                  ret (c_JSON StatusInternalServerError
                         (gin_H_error ("Failed to read image file: "
                                         +:+ Error err)) c)
              | Ok imageData =>
                  let c := c_Header "Access-Control-Allow-Origin" "*" c in
                  let c := c_Header "Access-Control-Allow-Methods" "GET, OPTIONS" c in
                  let c := c_Header "Access-Control-Allow-Headers" "Content-Type" c in
                  let contentType := getContentType unicodeLower (Path randomImage) in
                  let c := c_Header "Content-Type" contentType c in
                  let c := c_Header "X-Creation-Date"
                             (Format_RFC3339 (CreationDate randomImage)) c in
                  let c := c_Data StatusOK contentType imageData c in
                  Close file ;;;
                  ret c
              end
          end
    end.

Definition handleOptions (c : Context) : M Context :=
  let c := c_Header "Access-Control-Allow-Origin" "*" c in
  let c := c_Header "Access-Control-Allow-Methods" "GET, OPTIONS" c in
  let c := c_Header "Access-Control-Allow-Headers" "Content-Type" c in
  ret (c_Status StatusOK c).

(** The directory and the image a request picks: the next two numbers of
    the random source, reduced by the lengths of the two slices. *)
Definition pickedDir (w : World) : option string :=
  directoriesWithImages w
    !! (rand_source w (rand_drawn w) mod length (directoriesWithImages w)).

Definition isImageEntry (entry : FileInfo) : bool :=
  negb (IsDir entry) && isImageFile unicodeLower (Name entry).

Definition imageOf (randomDir : string) (entry : FileInfo) : ImageInfo :=
  {| Path := filepath.Join [randomDir; Name entry];
     CreationDate := ModTime entry |}.

Definition pickedEntry (w : World) (entries : list FileInfo) : option FileInfo :=
  List.filter isImageEntry entries
    !! (rand_source w (S (rand_drawn w))
        mod length (List.filter isImageEntry entries)).

(** What a request leaves of the state after the listing, the open and the
    read with its close. *)
Definition listed (randomDir : string) (w : World) : World :=
  issue (OpReadDir randomDir) (draw w).

Definition opened (randomDir path : string) (w : World) : World :=
  issue (OpOpen path) (draw (listed randomDir w)).

Definition closed (randomDir path : string) (file : File) (w : World) : World :=
  issue (OpClose (file_path file))
    (issue (OpReadAll (file_path file)) (opened randomDir path w)).

(** ** Remote directory trees

    A finite tree of remote directories, as the indexer meets it: every
    item of a directory is a file, a directory with its own items, or a
    directory whose listing fails.  Being finite, such a tree has no
    cycle. *)
Inductive Item : Type :=
| IFile (name : string) (mtime : Time)
| IDir (name : string) (mtime : Time) (content : list Item)
| IUnreadable (name : string) (mtime : Time) (err : error).

Definition entry_of (it : Item) : FileInfo :=
  match it with
  | IFile n t => {| Name := n; IsDir := false; ModTime := t |}
  | IDir n t _ => {| Name := n; IsDir := true; ModTime := t |}
  | IUnreadable n t _ => {| Name := n; IsDir := true; ModTime := t |}
  end.

(** [serves client path items]: the client presents the tree [items] at
    [path]. *)
Inductive serves (client : Client) : string -> list Item -> Prop :=
| serves_dir path items :
    client_ReadDir client path = Ok (map entry_of items) ->
    (forall n t sub, In (IDir n t sub) items ->
       serves client (filepath.Join [path; n]) sub) ->
    (forall n t err, In (IUnreadable n t err) items ->
       client_ReadDir client (filepath.Join [path; n]) = Err err) ->
    serves client path items.

(** No directory of the tree fails to list. *)
Fixpoint readable_item (it : Item) : bool :=
  match it with
  | IFile _ _ => true
  | IDir _ _ sub => forallb readable_item sub
  | IUnreadable _ _ _ => false
  end.

Definition all_readable (items : list Item) : bool :=
  forallb readable_item items.

(** The directory has a direct entry that is a file and an image. *)
Definition direct_image (items : list Item) : Prop :=
  exists n t, In (IFile n t) items /\ isImageFile unicodeLower n = true.

(** [in_tree root tree p items]: the tree [tree] at [root] has a readable
    directory with path [p] and items [items]. *)
Inductive in_tree : string -> list Item -> string -> list Item -> Prop :=
| in_tree_here root tree : in_tree root tree root tree
| in_tree_below root tree n t sub p items :
    In (IDir n t sub) tree ->
    in_tree (filepath.Join [root; n]) sub p items ->
    in_tree root tree p items.

(** [unreadable_in root tree p err]: the tree has a directory with path
    [p] whose listing fails with [err]. *)
Inductive unreadable_in : string -> list Item -> string -> error -> Prop :=
| unreadable_here root tree n t err :
    In (IUnreadable n t err) tree ->
    unreadable_in root tree (filepath.Join [root; n]) err
| unreadable_below root tree n t sub p err :
    In (IDir n t sub) tree ->
    unreadable_in (filepath.Join [root; n]) sub p err ->
    unreadable_in root tree p err.

(** Number of nested calls the walk of a tree needs below its root. *)
Fixpoint height_item (it : Item) : nat :=
  match it with
  | IFile _ _ => 0
  | IDir _ _ sub => S (list_max (map height_item sub))
  | IUnreadable _ _ _ => 1
  end.

Definition height (items : list Item) : nat :=
  list_max (map height_item items).

(** The paths a walk of the tree appends to the index, in order. *)
Fixpoint imageDirs_item (parent : string) (it : Item) : list string :=
  match it with
  | IDir n _ sub =>
      let path := filepath.Join [parent; n] in
      (if hasImages (map entry_of sub) then [path] else [])
      ++ flat_map (imageDirs_item path) sub
  | _ => []
  end.

Definition imageDirs (path : string) (items : list Item) : list string :=
  (if hasImages (map entry_of items) then [path] else [])
  ++ flat_map (imageDirs_item path) items.

Definition line_dir (path indent : string) (images : bool) : string :=
  if images
  then indent +:+ filepath.Base path +:+ "/ (contains images)" +:+ newline
  else indent +:+ filepath.Base path +:+ "/" +:+ newline.

Definition line_error (path : string) (err : error) : string :=
  "Error reading " +:+ path +:+ ": " +:+ Error err +:+ newline.

(** The lines a walk of the tree prints, in order. *)
Fixpoint walkLines_item (parent indent : string) (it : Item) : list string :=
  match it with
  | IFile _ _ => []
  | IDir n _ sub =>
      let path := filepath.Join [parent; n] in
      line_dir path (indent +:+ "  ") (hasImages (map entry_of sub))
      :: flat_map (walkLines_item path (indent +:+ "  ")) sub
  | IUnreadable n _ err => [line_error (filepath.Join [parent; n]) err]
  end.

Definition walkLines (path indent : string) (items : list Item) : list string :=
  line_dir path indent (hasImages (map entry_of items))
  :: flat_map (walkLines_item path indent) items.

(** The remote operations a walk of the tree issues, in order. *)
Fixpoint walkOps_item (parent : string) (it : Item) : list RemoteOp :=
  match it with
  | IFile _ _ => []
  | IDir n _ sub =>
      let path := filepath.Join [parent; n] in
      OpReadDir path :: flat_map (walkOps_item path) sub
  | IUnreadable n _ _ => [OpReadDir (filepath.Join [parent; n])]
  end.

Definition walkOps (path : string) (items : list Item) : list RemoteOp :=
  OpReadDir path :: flat_map (walkOps_item path) items.

(** The state [w] with the index, the output and the remote operations
    extended. *)
Definition extend (w : World) (dirs lines : list string) (ops : list RemoteOp)
    : World :=
  {| directoriesWithImages := directoriesWithImages w ++ dirs;
     sftpClient := sftpClient w;
     stdout := stdout w ++ lines;
     remote := remote w ++ ops;
     rand_source := rand_source w;
     rand_drawn := rand_drawn w |}.

(** ** Case-insensitive comparison of extensions, byte by byte *)

Definition isLower (c : ascii) : bool :=
  (97 <=? byte_val c)%N && (byte_val c <=? 122)%N.

(** [c] is [d], or the upper-case form of the lower-case letter [d]. *)
Definition same_letter (c d : ascii) : Prop :=
  c = d \/ (isLower d = true /\ (byte_val c + 32 = byte_val d)%N).

Definition equal_fold (s e : string) : Prop :=
  Forall2 same_letter (bytes s) (bytes e).

End Server.

(** ** A remote tree to run the program on

    [/a] holds [photo.JPG] and [notes.txt], [/b] holds [img.png], [/c] is
    empty; the larger tree adds [/d], whose listing fails, and [/e] with the
    file [.gif].  [photo.JPG] can be opened and read, [img.png] cannot be
    opened and [.gif] cannot be read. *)

Definition exFormat (t : nat) : string := "2024-05-01T12:00:00Z".

(** A lower-casing of the strings that are not ASCII, for the runs. *)
Definition exLower (s : string) : string := s.

Definition exA : list (@Item nat) := [IFile "photo.JPG" 10; IFile "notes.txt" 11].
Definition exB : list (@Item nat) := [IFile "img.png" 12].
Definition exE : list (@Item nat) := [IFile ".gif" 13].

Definition exTree : list (@Item nat) :=
  [IDir "a" 1 exA; IDir "b" 2 exB; IDir "c" 3 []].

Definition exDenied : error := {| Error := "permission denied" |}.
Definition exMissing : error := {| Error := "file does not exist" |}.
Definition exLost : error := {| Error := "connection lost" |}.

Definition exTreeBad : list (@Item nat) :=
  [IDir "a" 1 exA; IUnreadable "d" 4 exDenied; IDir "b" 2 exB; IDir "c" 3 [];
   IDir "e" 5 exE].

Definition exReadDir (root : list (@Item nat)) (path : string)
    : result (list (@FileInfo nat)) :=
  if String.eqb path "/" then Ok (map entry_of root)
  else if String.eqb path "/a" then Ok (map entry_of exA)
  else if String.eqb path "/b" then Ok (map entry_of exB)
  else if String.eqb path "/c" then Ok []
  else if String.eqb path "/d" then Err exDenied
  else if String.eqb path "/e" then Ok (map entry_of exE)
  else Err exMissing.

Definition exOpen (path : string) : result File :=
  if String.eqb path "/a/photo.JPG"
  then Ok {| file_path := path; file_read := Ok [Byte.xff; Byte.xd8; Byte.xff] |}
  else if String.eqb path "/e/.gif"
  then Ok {| file_path := path; file_read := Err exLost |}
  else Err exMissing.

Definition exClient (root : list (@Item nat)) : @Client nat :=
  {| client_ReadDir := exReadDir root; client_Open := exOpen |}.

(** A client whose connection is gone: every listing fails. *)
Definition exClientDown : @Client nat :=
  {| client_ReadDir := fun _ => Err exLost; client_Open := fun _ => Err exLost |}.

(** The state at startup, before the index is built. *)
Definition exStart (client : @Client nat) : @World nat :=
  {| directoriesWithImages := []; sftpClient := client; stdout := [];
     remote := []; rand_source := fun _ => 0; rand_drawn := 0 |}.

(** A state while serving; the first number drawn is [k]. *)
Definition exServing (k : nat) : @World nat :=
  {| directoriesWithImages := ["/a"; "/b"; "/c"; "/d"; "/e"];
     sftpClient := exClient exTreeBad; stdout := []; remote := [];
     rand_source := fun i => match i with 0 => k | _ => 0 end;
     rand_drawn := 0 |}.

(** ** Configuration and startup

    [os.Getenv] reads the process environment, a finite map from names to
    values, and gives the empty string for a name that is not set. *)

Definition os_Getenv (env : gmap string string) (key : string) : string :=
  default "" (env !! key).

Definition getEnv (env : gmap string string) (key defaultValue : string) : string :=
  let value := os_Getenv env key in
  if negb (String.eqb value "") then value else defaultValue.

(** [ssh.ClientConfig] as [main] fills it. *)
Inductive AuthMethod : Type := Password (secret : string).
Inductive HostKeyCallback : Type := InsecureIgnoreHostKey.
Record ClientConfig : Type :=
  { User : string; Auth : list AuthMethod; HostKey : HostKeyCallback }.

(** The deferred calls that run when [main] panics, and the handlers it
    registers. *)
Inductive Deferred : Type := conn_Close | client_Close.
Inductive HandlerFunc : Type := handler_getRandomImage | handler_handleOptions.

(** [%d] of a length. *)
Definition itoa (n : nat) : string :=
  DecimalString.NilEmpty.string_of_uint (Nat.to_uint n).

Section Startup.
Context {Time Conn : Type}.
Variable unicodeLower : string -> string.

(** What the network answers: [ssh.Dial(network, address, config)] and
    [sftp.NewClient(conn)]. *)
Record Network : Type :=
  { ssh_Dial : string -> string -> ClientConfig -> result Conn;
    sftp_NewClient : Conn -> result (@Client Time) }.

(** How [main] ends: with a panic, after the deferred calls made so far, or
    in [router.Run(serverAddress)] with its routes registered. *)
Inductive Exit : Type :=
| Panic (message : string) (deferred : list Deferred)
| Run (serverAddress : string) (routes : list (string * string * HandlerFunc)).

Local Notation "x <- m ;; k" := (bind m (fun x => k))
  (at level 90, m at level 80, k at level 200, right associativity).
Local Notation "m ;;; k" := (bind m (fun _ => k))
  (at level 90, k at level 200, right associativity).

(** [main].  [dotenv] is the result of [godotenv.Load()] and [env] the
    environment after it; [rand.Seed] chooses the random source, which is
    arbitrary here; the lines gin itself writes are not recorded. *)
Definition main (fuel : nat) (dotenv : option error) (env : gmap string string)
    (net : Network) : @M Time Exit :=
  (match dotenv with
   | Some err =>
       modify (Printf ("Warning: Error loading .env file: " +:+ Error err
                         +:+ newline)) ;;;
       modify (Printf ("Continuing with system environment variables..."
                         +:+ newline))
   | None => ret tt
   end) ;;;
  let sshUser := getEnv env "SSH_USER" "" in
  let sshPassword := getEnv env "SSH_PASSWORD" "" in
  let sshHost := getEnv env "SSH_HOST" "" in
  let sshPort := getEnv env "SSH_PORT" "22" in
  let serverHost := getEnv env "SERVER_HOST" "localhost" in
  let serverPort := getEnv env "SERVER_PORT" "3141" in
  if String.eqb sshUser "" || String.eqb sshPassword "" || String.eqb sshHost ""
  then
    ret (Panic "Missing required environment variables: SSH_USER, SSH_PASSWORD, and SSH_HOST must be set" [])
  else
    let config :=
      {| User := sshUser; Auth := [Password sshPassword];
         HostKey := InsecureIgnoreHostKey |} in
    let address := sshHost +:+ ":" +:+ sshPort in
    match ssh_Dial net "tcp" address config with
    | Err err => ret (Panic ("Failed to connect to NAS: " +:+ Error err) [])
    | Ok conn =>
        match sftp_NewClient net conn with
        | Err err =>
            ret (Panic ("Failed to create SFTP client: " +:+ Error err)
                   [conn_Close])
        | Ok client =>
            main_index unicodeLower fuel client ;;;
            dirs <- gets directoriesWithImages ;;
            modify (Printf ("Found " +:+ itoa (length dirs)
                              +:+ " directories with images" +:+ newline)) ;;;
            let serverAddress := serverHost +:+ ":" +:+ serverPort in
            modify (Printf ("Server starting on " +:+ serverAddress
                              +:+ newline)) ;;;
            ret (Run serverAddress
                   [("GET", "/getRandomImage", handler_getRandomImage);
                    ("OPTIONS", "/getRandomImage", handler_handleOptions)])
        end
    end.

End Startup.

(** ** The answers of the request handler, case by case *)

Section Answers.
Context {Time : Type}.
Variable Format_RFC3339 : Time -> string.
Variable unicodeLower : string -> string.

(** [answer c w c' w']: from the context [c] and the state [w] a request is
    answered with [c'] and leaves [w']. *)
Inductive answer (c : Context) (w : @World Time) : Context -> @World Time -> Prop :=
| answer_empty :
    directoriesWithImages w = [] ->
    answer c w
      (c_JSON 404 (gin_H_error "No directories with images found") c) w
| answer_unlisted randomDir err :
    pickedDir w = Some randomDir ->
    client_ReadDir (sftpClient w) randomDir = Err err ->
    answer c w
      (c_JSON 500 (gin_H_error ("Failed to read directory: " +:+ Error err)) c)
      (listed randomDir w)
| answer_no_images randomDir entries :
    pickedDir w = Some randomDir ->
    client_ReadDir (sftpClient w) randomDir = Ok entries ->
    List.filter (isImageEntry unicodeLower) entries = [] ->
    answer c w
      (c_JSON 404 (gin_H_error "No images found in selected directory") c)
      (listed randomDir w)
| answer_unopened randomDir entries entry err :
    pickedDir w = Some randomDir ->
    client_ReadDir (sftpClient w) randomDir = Ok entries ->
    pickedEntry unicodeLower w entries = Some entry ->
    client_Open (sftpClient w) (filepath.Join [randomDir; Name entry]) = Err err ->
    answer c w
      (c_JSON 500 (gin_H_error ("Failed to open image file: " +:+ Error err)) c)
      (opened randomDir (filepath.Join [randomDir; Name entry]) w)
| answer_unread randomDir entries entry file err :
    pickedDir w = Some randomDir ->
    client_ReadDir (sftpClient w) randomDir = Ok entries ->
    pickedEntry unicodeLower w entries = Some entry ->
    client_Open (sftpClient w) (filepath.Join [randomDir; Name entry]) = Ok file ->
    file_read file = Err err ->
    answer c w
      (c_JSON 500 (gin_H_error ("Failed to read image file: " +:+ Error err)) c)
      (closed randomDir (filepath.Join [randomDir; Name entry]) file w)
| answer_image randomDir entries entry file imageData :
    pickedDir w = Some randomDir ->
    client_ReadDir (sftpClient w) randomDir = Ok entries ->
    pickedEntry unicodeLower w entries = Some entry ->
    client_Open (sftpClient w) (filepath.Join [randomDir; Name entry]) = Ok file ->
    file_read file = Ok imageData ->
    answer c w
      (c_Data 200
         (getContentType unicodeLower (filepath.Join [randomDir; Name entry]))
         imageData
         (c_Header "X-Creation-Date" (Format_RFC3339 (ModTime entry))
            (c_Header "Content-Type"
               (getContentType unicodeLower
                  (filepath.Join [randomDir; Name entry]))
               (c_Header "Access-Control-Allow-Headers" "Content-Type"
                  (c_Header "Access-Control-Allow-Methods" "GET, OPTIONS"
                     (c_Header "Access-Control-Allow-Origin" "*" c))))))
      (closed randomDir (filepath.Join [randomDir; Name entry]) file w).

(** The number of directories of a tree below its root, unreadable ones
    included. *)
Fixpoint countDirs_item (it : @Item Time) : nat :=
  match it with
  | IFile _ _ => 0
  | IDir _ _ sub => S (list_sum (map countDirs_item sub))
  | IUnreadable _ _ _ => 1
  end.

Definition countDirs (items : list (@Item Time)) : nat :=
  list_sum (map countDirs_item items).

(** What a walk may add to the state: paths whose listing succeeded and
    showed an image file, and listings. *)
Definition sound_additions (client : @Client Time) (dirs : list string)
    (ops : list RemoteOp) : Prop :=
  (forall d, In d dirs ->
     exists entries, client_ReadDir client d = Ok entries
                     /\ hasImages unicodeLower entries = true)
  /\ (forall op, In op ops -> exists p, op = OpReadDir p).

Definition isOpReadDir (op : RemoteOp) : bool :=
  match op with OpReadDir _ => true | _ => false end.

End Answers.

(** Bytes that are neither a dot nor a separator. *)
Definition plain_byte (c : ascii) : Prop := is_dot c = false /\ IsPathSeparator c = false.

(** The absolute path made of the given names: [/] alone for no name, and
    [/n1/.../nk] otherwise. *)
Fixpoint join_elements (names : list (list ascii)) : list ascii :=
  match names with
  | [] => []
  | [e] => e
  | e :: rest => e ++ Separator :: join_elements rest
  end.

Definition rooted_path (names : list string) : string :=
  of_bytes (Separator :: join_elements (map bytes names)).

(** ** An environment and a network to start the program in *)

Definition exEnv : gmap string string :=
  list_to_map [("SSH_USER", "nas"); ("SSH_PASSWORD", "secret");
               ("SSH_HOST", "nas.local"); ("SERVER_PORT", "")].

Definition exNet (client : @Client nat) : @Network nat unit :=
  {| ssh_Dial := fun network address config =>
       if String.eqb address "nas.local:22" then Ok tt else Err exLost;
     sftp_NewClient := fun _ => Ok client |}.

(** A network on which no connection can be made. *)
Definition exNetDown : @Network nat unit :=
  {| ssh_Dial := fun _ _ _ => Err exLost;
     sftp_NewClient := fun _ => Err exLost |}.

(** A client that lists every path with one more directory below it. *)
Definition exClientLoop : @Client nat :=
  {| client_ReadDir := fun _ =>
       Ok [{| Name := "photo.jpg"; IsDir := false; ModTime := 1 |};
           {| Name := "loop"; IsDir := true; ModTime := 2 |}];
     client_Open := fun _ => Err exMissing |}.

(** * Properties *)

(** ** Bytes and strings *)

Lemma of_bytes_bytes (s : string) : of_bytes (bytes s) = s.
Proof. apply String.string_of_list_ascii_of_string. Qed.

Lemma bytes_of_bytes (l : list ascii) : bytes (of_bytes l) = l.
Proof. apply String.list_ascii_of_string_of_list_ascii. Qed.

Lemma bytes_inj (s t : string) : bytes s = bytes t -> s = t.
Proof.
  intros H. rewrite <- (of_bytes_bytes s), <- (of_bytes_bytes t). now rewrite H.
Qed.

Lemma bytes_append (s t : string) : bytes (s +:+ t) = bytes s ++ bytes t.
Proof.
  induction s as [|c s IH]; simpl; [reflexivity|].
  unfold bytes in *. simpl. now rewrite IH.
Qed.

Lemma byte_val_lt (c : ascii) : (byte_val c < 256)%N.
Proof. apply N_ascii_bounded. Qed.

Lemma byte_val_inj (c d : ascii) : byte_val c = byte_val d -> c = d.
Proof.
  intros H. rewrite <- (ascii_N_embedding c), <- (ascii_N_embedding d).
  unfold byte_val in H. now rewrite H.
Qed.

Lemma byte_val_of_N (n : N) : (n < 256)%N -> byte_val (ascii_of_N n) = n.
Proof. apply N_ascii_embedding. Qed.

(** ** strings.ToLower *)

Lemma scan_spec (bs : list ascii) (up : bool) :
  strings.scan bs up =
  if forallb isASCII bs then (true, up || existsb strings.isUpper bs)
  else (false, snd (strings.scan bs up)).
Proof.
  revert up. induction bs as [|c bs IH]; intros up; simpl.
  - now rewrite orb_false_r.
  - unfold isASCII at 1.
    destruct (N.leb_spec strings.RuneSelf (byte_val c)) as [Hc|Hc];
      destruct (N.ltb_spec (byte_val c) strings.RuneSelf) as [Hc'|Hc'];
      try lia; simpl; [reflexivity|].
    rewrite IH. destruct (forallb isASCII bs); [|reflexivity].
    now rewrite orb_assoc.
Qed.

Lemma map_lowerByte_id (bs : list ascii) :
  existsb strings.isUpper bs = false -> map strings.lowerByte bs = bs.
Proof.
  induction bs as [|c bs IH]; simpl; [reflexivity|].
  intros H. apply orb_false_iff in H as [Hc Hbs].
  unfold strings.lowerByte at 1. rewrite Hc. now rewrite IH.
Qed.

Section ClassifierFacts.
Variable unicodeLower : string -> string.

Local Abbreviation ToLower := (strings.ToLower unicodeLower).

(** On a string of ASCII bytes [ToLower] lowers every byte. *)
Lemma ToLower_ascii (s : string) :
  forallb isASCII (bytes s) = true ->
  ToLower s = of_bytes (map strings.lowerByte (bytes s)).
Proof.
  intros H. unfold strings.ToLower. rewrite scan_spec, H. simpl.
  destruct (existsb strings.isUpper (bytes s)) eqn:E; [reflexivity|].
  rewrite map_lowerByte_id by assumption. symmetry. apply of_bytes_bytes.
Qed.

Lemma isImageFile_loop_In (ext : string) (exts : list string) :
  isImageFile_loop ext exts = true <-> In ext exts.
Proof.
  induction exts as [|e exts IH]; simpl.
  - split; [discriminate|tauto].
  - destruct (String.eqb_spec ext e) as [->|Hne].
    + split; auto.
    + rewrite IH. split; [auto|]. intros [H|H]; [congruence|assumption].
Qed.

Lemma isImageFile_In (name : string) :
  isImageFile unicodeLower name = true <-> In (ToLower (filepath.Ext name)) imageExts.
Proof. apply isImageFile_loop_In. Qed.

Lemma switch_not_default (ext : string) :
  getContentType_switch ext <> CaseDefault <-> In ext imageExts.
Proof.
  unfold getContentType_switch, imageExts. simpl.
  destruct (String.eqb_spec ext ".jpg"); [simpl; split; [auto|discriminate]|].
  destruct (String.eqb_spec ext ".jpeg"); [simpl; split; [auto|discriminate]|].
  destruct (String.eqb_spec ext ".png"); [simpl; split; [auto|discriminate]|].
  destruct (String.eqb_spec ext ".gif"); [simpl; split; [auto|discriminate]|].
  destruct (String.eqb_spec ext ".bmp"); [simpl; split; [auto 7|discriminate]|].
  destruct (String.eqb_spec ext ".webp"); [simpl; split; [auto 8|discriminate]|].
  destruct (String.eqb_spec ext ".tiff"); [simpl; split; [auto 9|discriminate]|].
  destruct (String.eqb_spec ext ".tif"); [simpl; split; [auto 10|discriminate]|].
  destruct (String.eqb_spec ext ".svg"); [simpl; split; [auto 11|discriminate]|].
  simpl. split; [congruence|]. intuition congruence.
Qed.

Lemma isUpper_range (c : ascii) :
  strings.isUpper c = true <-> (65 <= byte_val c <= 90)%N.
Proof.
  unfold strings.isUpper. rewrite andb_true_iff, !N.leb_le. tauto.
Qed.

Lemma isLower_range (c : ascii) :
  isLower c = true <-> (97 <= byte_val c <= 122)%N.
Proof.
  unfold isLower. rewrite andb_true_iff, !N.leb_le. tauto.
Qed.

Lemma lowerByte_same_letter (c d : ascii) :
  strings.isUpper d = false ->
  strings.lowerByte c = d <-> same_letter c d.
Proof.
  intros Hd. unfold strings.lowerByte, same_letter.
  split.
  - destruct (strings.isUpper c) eqn:E.
    + intros <-. right. apply isUpper_range in E.
      rewrite isLower_range. rewrite byte_val_of_N by lia. lia.
    + intros ->. now left.
  - intros [->|[Hl Hv]].
    + now rewrite Hd.
    + apply isLower_range in Hl.
      replace (strings.isUpper c) with true
        by (symmetry; apply isUpper_range; lia).
      rewrite Hv. apply ascii_N_embedding.
Qed.

Lemma map_lowerByte_fold (bs es : list ascii) :
  existsb strings.isUpper es = false ->
  map strings.lowerByte bs = es <-> Forall2 same_letter bs es.
Proof.
  revert es. induction bs as [|c bs IH]; intros [|d es] Hes; simpl.
  - split; [constructor|reflexivity].
  - split; [discriminate|inversion 1].
  - split; [discriminate|inversion 1].
  - simpl in Hes. apply orb_false_iff in Hes as [Hd Hes]. split.
    + intros H. injection H as H1 H2. constructor.
      * now apply lowerByte_same_letter.
      * now apply IH.
    + inversion 1; subst. f_equal.
      * now apply lowerByte_same_letter.
      * now apply IH.
Qed.

Lemma fold_isASCII (bs es : list ascii) :
  forallb isASCII es = true -> Forall2 same_letter bs es ->
  forallb isASCII bs = true.
Proof.
  intros Hes H. induction H as [|c d bs es Hcd _ IH]; [reflexivity|].
  simpl in *. apply andb_true_iff in Hes as [Hd Hes].
  rewrite IH by assumption. rewrite andb_true_r.
  unfold isASCII, strings.RuneSelf in *. apply N.ltb_lt in Hd. apply N.ltb_lt.
  destruct Hcd as [->|[_ Hv]]; lia.
Qed.

Lemma imageExts_plain (e : string) :
  In e imageExts ->
  existsb strings.isUpper (bytes e) = false /\ forallb isASCII (bytes e) = true.
Proof.
  unfold imageExts. simpl.
  intros H. repeat destruct H as [<-|H]; try (split; reflexivity). destruct H.
Qed.

Lemma ToLower_of_fold (s e : string) :
  In e imageExts -> equal_fold s e -> ToLower s = e.
Proof.
  intros He Hf. destruct (imageExts_plain e He) as [Hup Hasc].
  rewrite ToLower_ascii by (eapply fold_isASCII; eassumption).
  apply bytes_inj. rewrite bytes_of_bytes. now apply map_lowerByte_fold.
Qed.

Lemma fold_of_ToLower (s e : string) :
  forallb isASCII (bytes s) = true ->
  In e imageExts -> ToLower s = e -> equal_fold s e.
Proof.
  intros Hs He Hl. destruct (imageExts_plain e He) as [Hup _].
  rewrite ToLower_ascii in Hl by assumption.
  apply map_lowerByte_fold; [assumption|].
  rewrite <- Hl. now rewrite bytes_of_bytes.
Qed.

Lemma ToLower_empty : ToLower "" = "".
Proof. reflexivity. Qed.

(** C5.  [isImageFile] accepts a filename exactly when its extension, put in
    lower case, is one of the nine recognized extensions.  For an extension
    made of ASCII bytes this is the same as differing from a recognized
    extension only in the case of its letters, and an extension that so
    differs is always accepted.  A filename without an extension is
    rejected. *)
Theorem isImageFile_recognized (name : string) :
  (isImageFile unicodeLower name = true <->
   In (ToLower (filepath.Ext name))
      [".jpg"; ".jpeg"; ".png"; ".gif"; ".bmp"; ".webp"; ".tiff"; ".tif"; ".svg"])
  /\ ((exists e, In e (map fst mimeTable) /\ equal_fold (filepath.Ext name) e) ->
      isImageFile unicodeLower name = true)
  /\ (forallb isASCII (bytes (filepath.Ext name)) = true ->
      isImageFile unicodeLower name = true ->
      exists e, In e (map fst mimeTable) /\ equal_fold (filepath.Ext name) e)
  /\ (filepath.Ext name = "" -> isImageFile unicodeLower name = false).
Proof.
  change (map fst mimeTable) with imageExts.
  repeat split.
  - apply isImageFile_In.
  - apply isImageFile_In.
  - intros (e & He & Hf). apply isImageFile_In.
    now rewrite (ToLower_of_fold _ e He Hf).
  - intros Hasc Hi. apply isImageFile_In in Hi.
    exists (ToLower (filepath.Ext name)). split; [assumption|].
    now apply fold_of_ToLower.
  - intros He. unfold isImageFile. rewrite He. reflexivity.
Qed.

(** C6.  [getContentType] gives every recognized extension, whatever the
    case of its letters, the MIME type of the table, and gives
    [image/jpeg] for every other extension; it is a total function. *)
Theorem getContentType_table (name : string) :
  (forall e m, In (e, m) mimeTable ->
     ToLower (filepath.Ext name) = e \/ equal_fold (filepath.Ext name) e ->
     getContentType unicodeLower name = m)
  /\ (~ In (ToLower (filepath.Ext name)) (map fst mimeTable) ->
      getContentType unicodeLower name = "image/jpeg").
Proof.
  split.
  - intros e m Hin Hext.
    assert (He : In e imageExts) by (change imageExts with (map fst mimeTable);
                                     apply in_map_iff; now exists (e, m)).
    assert (Hl : ToLower (filepath.Ext name) = e).
    { destruct Hext as [H|H]; [assumption|now apply ToLower_of_fold]. }
    unfold getContentType. rewrite Hl.
    unfold mimeTable in Hin. simpl in Hin.
    repeat destruct Hin as [Hin|Hin]; try (injection Hin as <- <-; reflexivity).
    destruct Hin.
  - change (map fst mimeTable) with imageExts. intros Hn.
    apply (fun H => proj2 (not_iff_compat (switch_not_default _)) H) in Hn.
    unfold getContentType.
    destruct (getContentType_switch (ToLower (filepath.Ext name)));
      try reflexivity; exfalso; apply Hn; discriminate.
Qed.

(** C7.  [isImageFile] and [getContentType] have the same domain: a filename
    is accepted by [isImageFile] exactly when the [switch] of
    [getContentType] takes one of its listed cases for it, and the same
    holds extension by extension. *)
Theorem classifier_domains_agree :
  (forall name : string,
     isImageFile unicodeLower name = true <->
     getContentType_switch (ToLower (filepath.Ext name)) <> CaseDefault)
  /\ (forall ext : string,
       isImageFile_loop ext imageExts = true <->
       getContentType_switch ext <> CaseDefault).
Proof.
  split.
  - intros name. rewrite switch_not_default. apply isImageFile_In.
  - intros ext. rewrite switch_not_default. apply isImageFile_loop_In.
Qed.

End ClassifierFacts.

(** ** The directory indexer *)

Section IndexerFacts.
Context {Time : Type}.
Variable unicodeLower : string -> string.

Local Abbreviation walk := (listFoldersRecursively unicodeLower).
Local Abbreviation World := (@World Time).
Local Abbreviation Item := (@Item Time).
Local Abbreviation FileInfo := (@FileInfo Time).
Local Abbreviation Client := (@Client Time).

Lemma extend_extend (w : World) a b c a' b' c' :
  extend (extend w a b c) a' b' c' = extend w (a ++ a') (b ++ b') (c ++ c').
Proof. unfold extend. simpl. now rewrite <- !app_assoc. Qed.

Lemma extend_nil (w : World) : extend w [] [] [] = w.
Proof. destruct w. unfold extend. simpl. now rewrite !app_nil_r. Qed.

Lemma issue_extend (op : RemoteOp) (w : World) : issue op w = extend w [] [] [op].
Proof. unfold issue, extend. now rewrite !app_nil_r. Qed.

Lemma Printf_extend (line : string) (w : World) :
  Printf line w = extend w [] [line] [].
Proof. unfold Printf, extend. now rewrite !app_nil_r. Qed.

Lemma append_dir_extend (path : string) (w : World) :
  set_directories (directoriesWithImages w ++ [path]) w = extend w [path] [] [].
Proof. unfold set_directories, extend. now rewrite !app_nil_r. Qed.

Lemma list_max_In (n : nat) (l : list nat) : In n l -> n <= list_max l.
Proof.
  induction l as [|m l IH]; simpl; [tauto|].
  intros [->|H]; [lia|]. specialize (IH H). lia.
Qed.

Lemma height_dir (items : list Item) n t sub :
  In (IDir n t sub) items -> S (height sub) <= height items.
Proof.
  intros H. unfold height at 2.
  apply (list_max_In (height_item (IDir n t sub))).
  apply in_map_iff. eauto.
Qed.

Lemma height_unreadable (items : list Item) n t err :
  In (IUnreadable n t err) items -> 1 <= height items.
Proof.
  intros H. unfold height.
  apply (list_max_In (height_item (IUnreadable n t err))).
  apply in_map_iff. eauto.
Qed.

(** A failed listing of the directory the walk is called on is returned at
    once, after that one remote operation. *)
Lemma walk_listing_fails (fuel : nat) (client : Client) path indent err (w : World) :
  client_ReadDir client path = Err err ->
  walk (S fuel) client path indent w = Some (Some err, issue (OpReadDir path) w).
Proof.
  intros H. simpl. unfold bind, ReadDir, modify, ret, bind. simpl. now rewrite H.
Qed.

Lemma descend_tree (client : Client) (f : nat) (path indent : string) :
  forall (its : list Item) (w : World),
    (forall n t sub, In (IDir n t sub) its ->
       forall w', walk f client (filepath.Join [path; n]) (indent +:+ "  ") w' =
         Some (None, extend w'
                 (imageDirs unicodeLower (filepath.Join [path; n]) sub)
                 (walkLines unicodeLower (filepath.Join [path; n]) (indent +:+ "  ") sub)
                 (walkOps (filepath.Join [path; n]) sub))) ->
    (forall n t err, In (IUnreadable n t err) its ->
       forall w', walk f client (filepath.Join [path; n]) (indent +:+ "  ") w' =
         Some (Some err, issue (OpReadDir (filepath.Join [path; n])) w')) ->
    descend (walk f client) path indent (map entry_of its) w =
    Some (tt, extend w
                (flat_map (imageDirs_item unicodeLower path) its)
                (flat_map (walkLines_item unicodeLower path indent) its)
                (flat_map (walkOps_item path) its)).
Proof.
  induction its as [|it its IH]; intros w Hdir Hbad.
  - simpl. unfold ret. now rewrite extend_nil.
  - assert (Hrest : forall w1,
      descend (walk f client) path indent (map entry_of its) w1 =
      Some (tt, extend w1
                  (flat_map (imageDirs_item unicodeLower path) its)
                  (flat_map (walkLines_item unicodeLower path indent) its)
                  (flat_map (walkOps_item path) its))).
    { intros w1. apply IH.
      - intros n t sub Hin. apply (Hdir n t sub). now right.
      - intros n t err Hin. apply (Hbad n t err). now right. }
    destruct it as [n t|n t sub|n t err]; cbn [map entry_of descend IsDir Name].
    + unfold bind at 1. unfold ret at 1. rewrite Hrest. reflexivity.
    + unfold bind at 1. unfold bind at 1.
      rewrite (Hdir n t sub (or_introl eq_refl)).
      unfold ret at 1. rewrite Hrest, extend_extend. reflexivity.
    + unfold bind at 1. unfold bind at 1.
      rewrite (Hbad n t err (or_introl eq_refl)).
      unfold modify at 1. rewrite Hrest.
      rewrite issue_extend, Printf_extend, !extend_extend. reflexivity.
Qed.

(** The walk of a tree the client serves returns [nil] whenever the fuel
    exceeds the height of the tree, and leaves the state extended by the
    image directories, the printed lines and the listings of the tree. *)
Lemma walk_tree (client : Client) :
  forall (fuel : nat) (path indent : string) (items : list Item) (w : World),
    serves client path items ->
    height items < fuel ->
    walk fuel client path indent w =
    Some (None, extend w (imageDirs unicodeLower path items)
                  (walkLines unicodeLower path indent items)
                  (walkOps path items)).
Proof.
  induction fuel as [|f IH]; intros path indent items w Hs Hh; [lia|].
  destruct Hs as [path items Hread Hdir Hbad].
  cbn [listFoldersRecursively].
  unfold bind at 1. unfold ReadDir. unfold bind at 1. unfold modify at 1.
  unfold ret at 1. rewrite Hread.
  assert (Hdesc : forall w1,
    descend (walk f client) path indent (map entry_of items) w1 =
    Some (tt, extend w1
                (flat_map (imageDirs_item unicodeLower path) items)
                (flat_map (walkLines_item unicodeLower path indent) items)
                (flat_map (walkOps_item path) items))).
  { intros w1. apply descend_tree.
    - intros n t sub Hin w'. apply IH; [now apply (Hdir n t sub)|].
      pose proof (height_dir items n t sub Hin). lia.
    - intros n t err Hin w'.
      pose proof (height_unreadable items n t err Hin).
      destruct f as [|f']; [lia|].
      apply walk_listing_fails. now apply (Hbad n t err). }
  unfold imageDirs, walkLines, walkOps, line_dir.
  destruct (hasImages unicodeLower (map entry_of items)).
  - unfold bind at 1. unfold bind at 1. unfold bind at 1. unfold modify.
    rewrite Hdesc. unfold ret.
    rewrite issue_extend, append_dir_extend, Printf_extend, !extend_extend.
    reflexivity.
  - unfold bind at 1. unfold bind at 1. unfold modify.
    rewrite Hdesc. unfold ret.
    rewrite issue_extend, Printf_extend, !extend_extend.
    reflexivity.
Qed.

(** Induction on items, with the items of a directory covered. *)
Lemma Item_nested_ind (P : Item -> Prop) :
  (forall n t, P (IFile n t)) ->
  (forall n t sub, Forall P sub -> P (IDir n t sub)) ->
  (forall n t err, P (IUnreadable n t err)) ->
  forall it, P it.
Proof.
  intros Hfile Hdir Hbad.
  fix IH 1. intros [n t|n t sub|n t err].
  - apply Hfile.
  - apply Hdir. induction sub as [|x sub IHsub]; constructor.
    + apply IH.
    + apply IHsub.
  - apply Hbad.
Qed.

Lemma hasImages_entry (entries : list FileInfo) :
  hasImages unicodeLower entries = true <->
  exists entry, In entry entries /\ IsDir entry = false
                /\ isImageFile unicodeLower (Name entry) = true.
Proof.
  induction entries as [|e entries IH]; simpl.
  - split; [discriminate|]. now intros (? & [] & _).
  - destruct (negb (IsDir e) && isImageFile unicodeLower (Name e)) eqn:E.
    + split; [intros _|reflexivity].
      apply andb_true_iff in E as [E1 E2]. apply negb_true_iff in E1. eauto.
    + rewrite IH. split.
      * intros (x & Hin & Hx). eauto.
      * intros (x & [->|Hin] & Hd & Hi); [|eauto].
        rewrite Hd, Hi in E. discriminate.
Qed.

Lemma hasImages_direct_image (items : list Item) :
  hasImages unicodeLower (map entry_of items) = true <->
  direct_image unicodeLower items.
Proof.
  rewrite hasImages_entry. unfold direct_image. split.
  - intros (e & Hin & Hd & Hi). apply in_map_iff in Hin as (it & <- & Hit).
    destruct it as [n t|n t sub|n t err]; simpl in *; try discriminate. eauto.
  - intros (n & t & Hin & Hi). exists (entry_of (IFile n t)). split; [|auto].
    apply in_map_iff. eauto.
Qed.

Lemma imageDirs_item_dir (parent : string) n t (sub : list Item) :
  imageDirs_item unicodeLower parent (IDir n t sub) =
  imageDirs unicodeLower (filepath.Join [parent; n]) sub.
Proof. reflexivity. Qed.

Lemma imageDirs_item_sound (it : Item) :
  forall parent p,
    In p (imageDirs_item unicodeLower parent it) ->
    exists n t sub items,
      it = IDir n t sub /\ in_tree (filepath.Join [parent; n]) sub p items
      /\ direct_image unicodeLower items.
Proof.
  induction it as [n t|n t sub IH|n t err] using Item_nested_ind;
    intros parent p Hp; cbn [imageDirs_item] in Hp; try (now destruct Hp).
  exists n, t, sub. apply in_app_iff in Hp as [Hp|Hp].
  - destruct (hasImages unicodeLower (map entry_of sub)) eqn:E; [|destruct Hp].
    destruct Hp as [<-|[]]. exists sub. repeat split.
    + constructor.
    + now apply hasImages_direct_image.
  - apply in_flat_map in Hp as (x & Hx & Hp).
    rewrite List.Forall_forall in IH.
    destruct (IH x Hx _ _ Hp) as (n' & t' & sub' & items & -> & Ht & Hd).
    exists items. repeat split; [|assumption].
    eapply in_tree_below; eassumption.
Qed.

(** Every path of [imageDirs] is the path of a directory of the tree that
    has a direct image. *)
Lemma imageDirs_sound (root : string) (tree : list Item) (p : string) :
  In p (imageDirs unicodeLower root tree) ->
  exists items, in_tree root tree p items /\ direct_image unicodeLower items.
Proof.
  unfold imageDirs. intros Hp. apply in_app_iff in Hp as [Hp|Hp].
  - destruct (hasImages unicodeLower (map entry_of tree)) eqn:E; [|destruct Hp].
    destruct Hp as [<-|[]]. exists tree. split.
    + constructor.
    + now apply hasImages_direct_image.
  - apply in_flat_map in Hp as (x & Hx & Hp).
    destruct (imageDirs_item_sound x _ _ Hp) as (n & t & sub & items & -> & Ht & Hd).
    exists items. split; [|assumption].
    eapply in_tree_below; eassumption.
Qed.

(** Every directory of the tree that has a direct image has its path in
    [imageDirs]. *)
Lemma imageDirs_complete (root : string) (tree : list Item) p (items : list Item) :
  in_tree root tree p items -> direct_image unicodeLower items ->
  In p (imageDirs unicodeLower root tree).
Proof.
  induction 1 as [root tree|root tree n t sub p items Hin Ht IH]; intros Hd.
  - unfold imageDirs. apply in_app_iff. left.
    apply hasImages_direct_image in Hd. rewrite Hd. now left.
  - unfold imageDirs. apply in_app_iff. right.
    apply in_flat_map. exists (IDir n t sub). split; [assumption|].
    rewrite imageDirs_item_dir. now apply IH.
Qed.

Lemma serves_in_tree (client : Client) root (tree : list Item) p (items : list Item) :
  serves client root tree -> in_tree root tree p items -> serves client p items.
Proof.
  intros Hs Ht. induction Ht as [root tree|root tree n t sub p items Hin Ht IH].
  - assumption.
  - apply IH. destruct Hs as [root tree _ Hdir _]. now apply (Hdir n t sub).
Qed.

(** The listing of a path decides whether the directory there has a direct
    image, so two directories of a served tree with one path agree on it. *)
Lemma serves_direct_image (client : Client) p (items items' : list Item) :
  serves client p items -> serves client p items' ->
  direct_image unicodeLower items -> direct_image unicodeLower items'.
Proof.
  intros [p1 its1 H1 _ _] Hs'. destruct Hs' as [p2 its2 H2 _ _].
  rewrite H1 in H2. injection H2 as H2.
  rewrite <- !hasImages_direct_image. now rewrite H2.
Qed.

Lemma imageDirs_exact (client : Client) root (tree : list Item) p (items : list Item) :
  serves client root tree -> in_tree root tree p items ->
  In p (imageDirs unicodeLower root tree) <-> direct_image unicodeLower items.
Proof.
  intros Hs Ht. split.
  - intros Hp. destruct (imageDirs_sound _ _ _ Hp) as (items' & Ht' & Hd).
    eapply serves_direct_image; [| |exact Hd]; eapply serves_in_tree; eassumption.
  - now apply imageDirs_complete.
Qed.

Lemma walkLines_item_dir (parent indent : string) n t (sub : list Item) :
  walkLines_item unicodeLower parent indent (IDir n t sub) =
  walkLines unicodeLower (filepath.Join [parent; n]) (indent +:+ "  ") sub.
Proof. reflexivity. Qed.

(** The failure of every unreadable directory of the tree is printed. *)
Lemma walkLines_error (root : string) (tree : list Item) p err :
  unreadable_in root tree p err ->
  forall indent, In (line_error p err) (walkLines unicodeLower root indent tree).
Proof.
  induction 1 as [root tree n t err Hin|root tree n t sub p err Hin Hu IH];
    intros indent; unfold walkLines; right; apply in_flat_map.
  - exists (IUnreadable n t err). split; [assumption|]. now left.
  - exists (IDir n t sub). split; [assumption|].
    rewrite walkLines_item_dir. apply IH.
Qed.

(** C1.  On a finite tree of directories all of whose listings succeed, the
    walk started with more fuel than the tree is high returns [nil]; the
    index then is the former index followed by [imageDirs], which holds the
    path of a directory of the tree exactly when that directory has a
    direct entry that is a file classified as an image, and holds nothing
    but paths of such directories. *)
Theorem listFoldersRecursively_indexes_image_directories
    (client : Client) (root indent : string) (tree : list Item) (w : World) :
  serves client root tree ->
  all_readable tree = true ->
  forall fuel, height tree < fuel ->
  exists w' : World,
    walk fuel client root indent w = Some (None, w')
    /\ directoriesWithImages w' =
       directoriesWithImages w ++ imageDirs unicodeLower root tree
    /\ (forall p items, in_tree root tree p items ->
          (In p (imageDirs unicodeLower root tree) <->
           direct_image unicodeLower items))
    /\ (forall p, In p (imageDirs unicodeLower root tree) ->
          exists items, in_tree root tree p items
                        /\ direct_image unicodeLower items).
Proof.
  intros Hs _ fuel Hfuel. eexists. split; [exact (walk_tree client fuel root indent tree w Hs Hfuel)|].
  split; [reflexivity|]. split.
  - intros p items Ht. now apply (imageDirs_exact client).
  - apply imageDirs_sound.
Qed.

(** C2.  When the listing of a directory below the root fails, the walk of
    the tree still returns [nil]: the failure is printed, and the index
    receives the path of every readable directory of the tree that has a
    direct image. *)
Theorem listFoldersRecursively_survives_unreadable
    (client : Client) (root indent : string) (tree : list Item) (w : World)
    (bad : string) (err : error) :
  serves client root tree ->
  unreadable_in root tree bad err ->
  forall fuel, height tree < fuel ->
  exists w' : World,
    walk fuel client root indent w = Some (None, w')
    /\ directoriesWithImages w' =
       directoriesWithImages w ++ imageDirs unicodeLower root tree
    /\ (forall p items, in_tree root tree p items ->
          direct_image unicodeLower items -> In p (directoriesWithImages w'))
    /\ In (line_error bad err) (stdout w').
Proof.
  intros Hs Hbad fuel Hfuel. eexists.
  split; [exact (walk_tree client fuel root indent tree w Hs Hfuel)|].
  split; [reflexivity|]. split.
  - intros p items Ht Hd. simpl. apply in_app_iff. right.
    exact (imageDirs_complete _ _ _ items Ht Hd).
  - simpl. apply in_app_iff. right. now apply walkLines_error.
Qed.

(** C9.  When the listing of the directory the walk starts at fails, the
    walk returns that error after this single remote operation: the index
    and the output are as before.  [main] then prints the error and leaves
    the index as it was. *)
Theorem listFoldersRecursively_root_failure
    (client : Client) (root indent : string) (err : error) (w : World) (fuel : nat) :
  client_ReadDir client root = Err err ->
  (exists w' : World,
     walk (S fuel) client root indent w = Some (Some err, w')
     /\ directoriesWithImages w' = directoriesWithImages w
     /\ stdout w' = stdout w
     /\ remote w' = remote w ++ [OpReadDir root])
  /\ (root = "/" ->
      exists w' : World,
        main_index unicodeLower (S fuel) client w = Some (tt, w')
        /\ directoriesWithImages w' = directoriesWithImages w
        /\ stdout w' = stdout w ++ ["Error listing folders: " +:+ Error err +:+ newline]
        /\ remote w' = remote w ++ [OpReadDir "/"]).
Proof.
  intros Hread. split.
  - eexists. split; [exact (walk_listing_fails fuel client root indent err w Hread)|].
    now repeat split.
  - intros ->. unfold main_index. unfold bind at 1. unfold modify at 1.
    unfold bind at 1. rewrite (walk_listing_fails fuel client _ _ err _ Hread).
    unfold modify. eexists. split; [reflexivity|]. now repeat split.
Qed.

End IndexerFacts.

(** ** filepath.Ext of a joined path *)

Section PathFacts.

Lemma IsPathSeparator_true (c : ascii) : IsPathSeparator c = true <-> c = Separator.
Proof. apply Ascii.eqb_eq. Qed.

Lemma ends_sep_tail (c : ascii) (l : list ascii) :
  ends_sep (c :: l) -> l <> [] -> ends_sep l.
Proof.
  intros [[|x l'] H] Hl; simpl in H.
  - injection H as _ H. congruence.
  - injection H as _ H. now exists l'.
Qed.

Lemma ends_sep_single (c : ascii) : ends_sep [c] -> IsPathSeparator c = true.
Proof.
  intros [[|x l'] H]; simpl in H.
  - injection H as ->. reflexivity.
  - injection H as _ H. destruct l'; discriminate.
Qed.

Lemma ends_sep_app (l l' : list ascii) : ends_sep l' -> ends_sep (l ++ l').
Proof. intros [x ->]. exists (l ++ x). now rewrite app_assoc. Qed.

Lemma clean_loop_copy (rooted : bool) (e : list ascii) :
  List.Forall not_sep e ->
  forall out dd, filepath.clean_loop rooted e true out dd = rev e ++ out.
Proof.
  induction 1 as [|c e Hc _ IH]; intros out dd; simpl; [reflexivity|].
  rewrite Hc, IH. now rewrite <- app_assoc.
Qed.

Lemma at_element_end_inside (t : list ascii) :
  List.Forall not_sep t -> t <> [] -> filepath.at_element_end t = false.
Proof. intros [|c t' Hc _] Ht; [congruence|exact Hc]. Qed.

(** One turn of the loop of [Clean] at the start of a real element. *)
Lemma clean_loop_default (rooted : bool) (c : ascii) (t out : list ascii) (dd : nat) :
  IsPathSeparator c = false ->
  is_dot c && filepath.at_element_end t = false ->
  match t with
  | c2 :: t2 => is_dot c && is_dot c2 && filepath.at_element_end t2
  | [] => false
  end = false ->
  filepath.clean_loop rooted (c :: t) false out dd =
  filepath.clean_loop rooted t true
    (c :: (if (rooted && negb (length out =? 1))
              || (negb rooted && negb (length out =? 0))
           then Separator :: out else out)) dd.
Proof.
  intros Hc H1 H2. cbn [filepath.clean_loop]. rewrite Hc, H1.
  destruct t as [|c2 t2]; [reflexivity|]. now rewrite H2.
Qed.

(** The loop of [Clean] writes a last element that is real as it is. *)
Lemma clean_loop_real (rooted : bool) (e : list ascii) :
  real_element e ->
  forall out dd, exists out',
    filepath.clean_loop rooted e false out dd = rev e ++ out'.
Proof.
  intros (Hne & Hsep & Hdot & Hdotdot) out dd.
  destruct e as [|c t]; [congruence|].
  inversion Hsep as [|? ? Hc Ht]; subst.
  rewrite clean_loop_default; [| exact Hc | |].
  - rewrite clean_loop_copy by assumption. eexists.
    simpl. now rewrite <- app_assoc.
  - destruct (is_dot c) eqn:Edot; [|reflexivity]. simpl.
    apply at_element_end_inside; [assumption|].
    intros ->. apply Ascii.eqb_eq in Edot. congruence.
  - destruct t as [|c2 t2]; [reflexivity|].
    destruct (is_dot c) eqn:Edot; [|reflexivity].
    destruct (is_dot c2) eqn:Edot2; [|reflexivity]. simpl.
    inversion Ht; subst.
    apply at_element_end_inside; [assumption|].
    intros ->. apply Ascii.eqb_eq in Edot, Edot2. congruence.
Qed.

Lemma clean_loop_prefix (rooted : bool) (e : list ascii) :
  forall n pfx copying out dd,
    length pfx <= n -> (pfx = [] -> copying = false) -> (pfx <> [] -> ends_sep pfx) ->
    exists out' dd',
      filepath.clean_loop rooted (pfx ++ e) copying out dd =
      filepath.clean_loop rooted e false out' dd'.
Proof.
  induction n as [|n IH]; intros pfx copying out dd Hlen Hnil Hends.
  - destruct pfx; [|simpl in Hlen; lia]. rewrite Hnil by reflexivity. simpl. eauto.
  - destruct pfx as [|c rest].
    { rewrite Hnil by reflexivity. simpl. eauto. }
    specialize (Hends ltac:(discriminate)). simpl in Hlen.
    assert (Hnext : forall out1 dd1, exists out' dd',
              filepath.clean_loop rooted (rest ++ e) false out1 dd1 =
              filepath.clean_loop rooted e false out' dd').
    { intros out1 dd1. apply IH; [lia|reflexivity|].
      intros Hrest. now apply (ends_sep_tail c). }
    assert (Hcopy : IsPathSeparator c = false -> forall out1 dd1, exists out' dd',
              filepath.clean_loop rooted (rest ++ e) true out1 dd1 =
              filepath.clean_loop rooted e false out' dd').
    { intros Hc out1 dd1.
      assert (rest <> []).
      { intros ->. apply ends_sep_single in Hends. congruence. }
      apply IH; [lia|congruence|]. intros _. now apply (ends_sep_tail c). }
    change ((c :: rest) ++ e) with (c :: (rest ++ e)).
    cbn [filepath.clean_loop].
    destruct copying.
    + destruct (IsPathSeparator c) eqn:Ec; [apply Hnext|now apply Hcopy].
    + destruct (IsPathSeparator c) eqn:Ec; [apply Hnext|].
      destruct (is_dot c && filepath.at_element_end (rest ++ e)) eqn:E1;
        [apply Hnext|].
      destruct rest as [|c2 rest2].
      { apply ends_sep_single in Hends. congruence. }
      change ((c2 :: rest2) ++ e) with (c2 :: (rest2 ++ e)).
      cbv iota beta.
      destruct (is_dot c && is_dot c2 && filepath.at_element_end (rest2 ++ e)) eqn:E2.
      * assert (Hnext2 : forall out1 dd1, exists out' dd',
                  filepath.clean_loop rooted (rest2 ++ e) false out1 dd1 =
                  filepath.clean_loop rooted e false out' dd').
        { intros out1 dd1. apply IH; [simpl in Hlen; lia|reflexivity|].
          intros Hrest. apply (ends_sep_tail c2); [|assumption].
          apply (ends_sep_tail c); [assumption|discriminate]. }
        destruct (dd <? length out); [apply Hnext2|].
        destruct (negb rooted); apply Hnext2.
      * change (c2 :: (rest2 ++ e)) with ((c2 :: rest2) ++ e).
        now apply Hcopy.
Qed.

Lemma ext_scan_found (r r' seen : list ascii) :
  filepath.ext_scan r seen <> [] ->
  filepath.ext_scan (r ++ r') seen = filepath.ext_scan r seen.
Proof.
  revert seen. induction r as [|c r IH]; intros seen H; simpl in *; [congruence|].
  destruct (IsPathSeparator c); [congruence|].
  destruct (is_dot c); [reflexivity|]. now apply IH.
Qed.

Lemma ext_scan_element (r r' seen : list ascii) :
  List.Forall not_sep r -> (r' = [] \/ exists c t, r' = c :: t /\ IsPathSeparator c = true) ->
  filepath.ext_scan (r ++ r') seen = filepath.ext_scan r seen.
Proof.
  intros Hr Hr'. revert seen. induction Hr as [|c r Hc _ IH]; intros seen; simpl.
  - destruct Hr' as [->|(c & t & -> & Hc)]; [reflexivity|]. simpl. now rewrite Hc.
  - rewrite Hc. destruct (is_dot c); [reflexivity|]. apply IH.
Qed.

(** Every path is its last element preceded by nothing or by a prefix that
    ends with a separator. *)
Lemma last_element_split (l : list ascii) :
  exists pre e, l = pre ++ e /\ List.Forall not_sep e /\ (pre = [] \/ ends_sep pre).
Proof.
  induction l as [|c l IH] using rev_ind.
  - exists [], []. repeat split; auto.
  - destruct (IsPathSeparator c) eqn:Ec.
    + exists (l ++ [c]), []. rewrite app_nil_r. repeat split; auto.
      right. apply IsPathSeparator_true in Ec. subst. now exists l.
    + destruct IH as (pre & e & -> & He & Hpre).
      exists pre, (e ++ [c]). rewrite app_assoc. repeat split; auto.
      apply List.Forall_app. split; [assumption|]. now constructor.
Qed.

(** [Clean] keeps the extension of a path whose last element is real. *)
Lemma Clean_keeps_ext (pre e : list ascii) :
  real_element e -> (pre = [] \/ ends_sep pre) ->
  filepath.ext_scan (rev e) [] <> [] ->
  filepath.Ext (filepath.Clean (of_bytes (pre ++ e))) =
  of_bytes (filepath.ext_scan (rev e) []).
Proof.
  intros Hreal Hpre Hext.
  assert (Hout : forall rooted rest,
            (rest = e \/ exists pfx, rest = pfx ++ e /\ ends_sep pfx) ->
            forall out dd, exists out',
              filepath.clean_loop rooted rest false out dd = rev e ++ out').
  { intros rooted rest Hrest out dd.
    destruct Hrest as [->|(pfx & -> & Hpfx)]; [now apply clean_loop_real|].
    destruct (clean_loop_prefix rooted e (length pfx) pfx false out dd)
      as (out1 & dd1 & ->); [lia|reflexivity|auto|].
    now apply clean_loop_real. }
  assert (Hfin : forall out', filepath.Ext (of_bytes (rev
            (match rev e ++ out' with [] => [dot] | _ => rev e ++ out' end))) =
            of_bytes (filepath.ext_scan (rev e) [])).
  { intros out'. destruct Hreal as (Hne & _).
    destruct (rev e ++ out') as [|x l] eqn:E.
    - apply app_eq_nil in E as [E _].
      apply (f_equal (@rev ascii)) in E. rewrite rev_involutive in E.
      simpl in E. congruence.
    - rewrite <- E. unfold filepath.Ext.
      rewrite bytes_of_bytes, rev_involutive. now rewrite ext_scan_found. }
  unfold filepath.Clean. rewrite bytes_of_bytes.
  destruct Hreal as (Hne & Hsep & Hd1 & Hd2).
  assert (Hreal : real_element e) by (repeat split; assumption).
  destruct pre as [|c pre'].
  - simpl app. destruct e as [|c t]; [congruence|].
    inversion Hsep as [|? ? Hc _]; subst. cbv beta iota zeta. rewrite Hc.
    destruct (Hout false (c :: t) (or_introl eq_refl) [] 0) as (out' & ->).
    apply Hfin.
  - destruct Hpre as [Hpre|Hpre]; [discriminate|].
    change ((c :: pre') ++ e) with (c :: (pre' ++ e)). cbv beta iota zeta.
    destruct (IsPathSeparator c) eqn:Ec.
    + assert (Hrest : pre' ++ e = e \/ exists pfx, pre' ++ e = pfx ++ e /\ ends_sep pfx).
      { destruct pre' as [|c' pre''] eqn:Epre; [now left|right].
        exists (c' :: pre''). split; [reflexivity|].
        apply (ends_sep_tail c); [assumption|discriminate]. }
      destruct (Hout true _ Hrest [Separator] 1) as (out' & ->). apply Hfin.
    + assert (Hrest : c :: pre' ++ e = e \/
                      exists pfx, c :: pre' ++ e = pfx ++ e /\ ends_sep pfx).
      { right. exists (c :: pre'). split; [reflexivity|assumption]. }
      destruct (Hout false _ Hrest [] 0) as (out' & ->). apply Hfin.
Qed.

(** [Join] keeps the extension of a name that has one other than [.]. *)
Lemma Ext_Join (dir name : string) :
  filepath.Ext name <> "" -> filepath.Ext name <> "." ->
  filepath.Ext (filepath.Join [dir; name]) = filepath.Ext name.
Proof.
  intros Hne Hdot.
  destruct (last_element_split (bytes name)) as (pre & e & Hname & He & Hpre).
  assert (Hext : filepath.Ext name = of_bytes (filepath.ext_scan (rev e) [])).
  { unfold filepath.Ext. rewrite Hname, rev_app_distr. f_equal.
    apply ext_scan_element.
    - now apply List.Forall_rev.
    - destruct Hpre as [->|[l' ->]]; [now left|right].
      rewrite rev_app_distr. simpl. eauto. }
  assert (Hscan : filepath.ext_scan (rev e) [] <> []).
  { intros H. rewrite H in Hext. simpl in Hext. congruence. }
  assert (Hreal : real_element e).
  { repeat split; try assumption; intros ->.
    - now apply Hscan.
    - apply Hdot. now rewrite Hext.
    - apply Hdot. now rewrite Hext. }
  assert (Hnonempty : name <> "").
  { intros ->. apply Hne. reflexivity. }
  rewrite Hext. cbn [filepath.Join].
  destruct (String.eqb_spec dir "") as [->|Hdir].
  - destruct (String.eqb_spec name "") as [->|_]; [congruence|].
    cbn [filepath.join_sep]. rewrite <- (of_bytes_bytes name), Hname.
    now apply Clean_keeps_ext.
  - cbn [filepath.join_sep].
    rewrite <- (of_bytes_bytes (dir +:+ "/" +:+ name)).
    rewrite !bytes_append, Hname.
    change (bytes "/") with [Separator].
    rewrite !app_assoc. apply Clean_keeps_ext; [assumption| |assumption].
    right. destruct Hpre as [->|Hpre].
    + rewrite app_nil_r. now exists (bytes dir).
    + now apply ends_sep_app.
Qed.

End PathFacts.

(** ** The request handler *)

Section HandlerFacts.
Context {Time : Type}.
Variable Format_RFC3339 : Time -> string.
Variable unicodeLower : string -> string.

Local Abbreviation handler := (getRandomImage Format_RFC3339 unicodeLower).
Local Abbreviation World := (@World Time).
Local Abbreviation FileInfo := (@FileInfo Time).
Local Abbreviation ImageInfo := (@ImageInfo Time).

Lemma isImageFile_has_ext (name : string) :
  isImageFile unicodeLower name = true ->
  filepath.Ext name <> "" /\ filepath.Ext name <> ".".
Proof.
  intros H. apply isImageFile_In in H.
  split; intros E; rewrite E in H; vm_compute in H; intuition discriminate.
Qed.

(** The content type of a joined path is that of the name joined last. *)
Lemma getContentType_Join (dir name : string) :
  isImageFile unicodeLower name = true ->
  getContentType unicodeLower (filepath.Join [dir; name]) =
  getContentType unicodeLower name.
Proof.
  intros H. destruct (isImageFile_has_ext name H) as [H1 H2].
  unfold getContentType. now rewrite Ext_Join.
Qed.

Lemma getContentType_nonempty (name : string) :
  String.eqb (getContentType unicodeLower name) "" = false.
Proof.
  unfold getContentType.
  now destruct (getContentType_switch
                  (strings.ToLower unicodeLower (filepath.Ext name))).
Qed.

Lemma collectImages_filter (randomDir : string) (entries : list FileInfo) :
  forall images : list ImageInfo,
    collectImages unicodeLower randomDir entries images =
    images ++ map (imageOf randomDir) (List.filter (isImageEntry unicodeLower) entries).
Proof.
  induction entries as [|e entries IH]; intros images; simpl.
  - now rewrite app_nil_r.
  - unfold isImageEntry at 1.
    destruct (negb (IsDir e) && isImageFile unicodeLower (Name e)).
    + rewrite IH. simpl. now rewrite <- app_assoc.
    + apply IH.
Qed.

Lemma pickedDir_nonempty (w : World) (randomDir : string) :
  pickedDir w = Some randomDir ->
  (length (directoriesWithImages w) =? 0) = false.
Proof.
  unfold pickedDir. destruct (directoriesWithImages w); [discriminate|reflexivity].
Qed.

Lemma pickedEntry_nonempty (w : World) (entries : list FileInfo) entry randomDir :
  pickedEntry unicodeLower w entries = Some entry ->
  (length (collectImages unicodeLower randomDir entries []) =? 0) = false
  /\ collectImages unicodeLower randomDir entries []
       !! (rand_source w (S (rand_drawn w))
           mod length (collectImages unicodeLower randomDir entries []))
     = Some (imageOf randomDir entry).
Proof.
  unfold pickedEntry. rewrite collectImages_filter. simpl.
  rewrite length_map, list_lookup_fmap.
  intros H. rewrite H. split; [|reflexivity].
  destruct (List.filter (isImageEntry unicodeLower) entries); [discriminate|reflexivity].
Qed.

Lemma pickedEntry_image (w : World) (entries : list FileInfo) entry :
  pickedEntry unicodeLower w entries = Some entry ->
  In entry entries /\ IsDir entry = false
  /\ isImageFile unicodeLower (Name entry) = true.
Proof.
  unfold pickedEntry. intros H.
  apply list_elem_of_lookup_2, list_elem_of_In, filter_In in H as [Hin H].
  unfold isImageEntry in H. apply andb_true_iff in H as [H1 H2].
  apply negb_true_iff in H1. auto.
Qed.

(** The steps of a request up to the listing of the picked directory, and
    from the listing to the open of the picked image. *)
Ltac request_lists Hdir :=
  let Hlen := fresh "Hlen" in
  pose proof (pickedDir_nonempty _ _ Hdir) as Hlen;
  unfold getRandomImage; unfold bind at 1; unfold gets at 1; rewrite Hlen;
  unfold bind at 1; unfold gets at 1;
  unfold bind at 1; unfold Intn at 1; rewrite Hlen;
  unfold bind at 1; unfold index at 1;
  unfold pickedDir in Hdir; rewrite Hdir;
  unfold ret at 1; unfold bind at 1; unfold gets at 1;
  unfold bind at 1; unfold ReadDir at 1; unfold bind at 1; unfold modify at 1;
  unfold ret at 1; cbn [sftpClient draw].

Ltac request_opens Hentry randomDir :=
  let H1 := fresh "Hlen" in
  let H2 := fresh "Hidx" in
  destruct (pickedEntry_nonempty _ _ _ randomDir Hentry) as [H1 H2];
  rewrite H1;
  unfold bind at 1; unfold Intn at 1; rewrite H1;
  unfold bind at 1; unfold index at 1;
  cbn [issue draw rand_source rand_drawn]; rewrite H2;
  unfold ret at 1; unfold bind at 1; unfold Open at 1; unfold bind at 1;
  unfold modify at 1; unfold ret at 1; cbn [imageOf Path].

Ltac request_reads Hfile :=
  unfold bind at 1; unfold ReadAll at 1; unfold bind at 1; unfold modify at 1;
  unfold ret at 1; rewrite Hfile; unfold bind at 1; unfold Close, modify.

Lemma handler_empty_index (c : Context) (w : World) :
  directoriesWithImages w = [] ->
  handler c w =
  Some (c_JSON 404 (gin_H_error "No directories with images found") c, w).
Proof.
  intros H. unfold getRandomImage, bind, gets. rewrite H. reflexivity.
Qed.

Lemma handler_listing_fails (c : Context) (w : World) randomDir err :
  pickedDir w = Some randomDir ->
  client_ReadDir (sftpClient w) randomDir = Err err ->
  handler c w =
  Some (c_JSON 500 (gin_H_error ("Failed to read directory: " +:+ Error err)) c,
        listed randomDir w).
Proof.
  intros Hdir Hread. request_lists Hdir. rewrite Hread. reflexivity.
Qed.

Lemma handler_no_images (c : Context) (w : World) randomDir entries :
  pickedDir w = Some randomDir ->
  client_ReadDir (sftpClient w) randomDir = Ok entries ->
  List.filter (isImageEntry unicodeLower) entries = [] ->
  handler c w =
  Some (c_JSON 404 (gin_H_error "No images found in selected directory") c,
        listed randomDir w).
Proof.
  intros Hdir Hread Hnone. request_lists Hdir. rewrite Hread.
  rewrite collectImages_filter, Hnone. reflexivity.
Qed.

Lemma handler_open_fails (c : Context) (w : World) randomDir entries entry err :
  pickedDir w = Some randomDir ->
  client_ReadDir (sftpClient w) randomDir = Ok entries ->
  pickedEntry unicodeLower w entries = Some entry ->
  client_Open (sftpClient w) (filepath.Join [randomDir; Name entry]) = Err err ->
  handler c w =
  Some (c_JSON 500 (gin_H_error ("Failed to open image file: " +:+ Error err)) c,
        opened randomDir (filepath.Join [randomDir; Name entry]) w).
Proof.
  intros Hdir Hread Hentry Hopen. request_lists Hdir. rewrite Hread.
  request_opens Hentry randomDir. rewrite Hopen. reflexivity.
Qed.

Lemma handler_read_fails (c : Context) (w : World) randomDir entries entry file err :
  pickedDir w = Some randomDir ->
  client_ReadDir (sftpClient w) randomDir = Ok entries ->
  pickedEntry unicodeLower w entries = Some entry ->
  client_Open (sftpClient w) (filepath.Join [randomDir; Name entry]) = Ok file ->
  file_read file = Err err ->
  handler c w =
  Some (c_JSON 500 (gin_H_error ("Failed to read image file: " +:+ Error err)) c,
        closed randomDir (filepath.Join [randomDir; Name entry]) file w).
Proof.
  intros Hdir Hread Hentry Hopen Hfile. request_lists Hdir. rewrite Hread.
  request_opens Hentry randomDir. rewrite Hopen. request_reads Hfile.
  reflexivity.
Qed.

Lemma handler_serves (c : Context) (w : World) randomDir entries entry file imageData :
  pickedDir w = Some randomDir ->
  client_ReadDir (sftpClient w) randomDir = Ok entries ->
  pickedEntry unicodeLower w entries = Some entry ->
  client_Open (sftpClient w) (filepath.Join [randomDir; Name entry]) = Ok file ->
  file_read file = Ok imageData ->
  let contentType :=
    getContentType unicodeLower (filepath.Join [randomDir; Name entry]) in
  handler c w =
  Some (c_Data 200 contentType imageData
          (c_Header "X-Creation-Date" (Format_RFC3339 (ModTime entry))
             (c_Header "Content-Type" contentType
                (c_Header "Access-Control-Allow-Headers" "Content-Type"
                   (c_Header "Access-Control-Allow-Methods" "GET, OPTIONS"
                      (c_Header "Access-Control-Allow-Origin" "*" c))))),
        closed randomDir (filepath.Join [randomDir; Name entry]) file w).
Proof.
  intros Hdir Hread Hentry Hopen Hfile. request_lists Hdir. rewrite Hread.
  request_opens Hentry randomDir. rewrite Hopen. request_reads Hfile.
  reflexivity.
Qed.

Lemma remote_listed (randomDir : string) (w : World) :
  remote (listed randomDir w) = remote w ++ [OpReadDir randomDir].
Proof. reflexivity. Qed.

Lemma remote_opened (randomDir path : string) (w : World) :
  remote (opened randomDir path w) = remote w ++ [OpReadDir randomDir; OpOpen path].
Proof. simpl. now rewrite <- app_assoc. Qed.

Lemma remote_closed (randomDir path : string) file (w : World) :
  remote (closed randomDir path file w) =
  remote w ++ [OpReadDir randomDir; OpOpen path;
               OpReadAll (file_path file); OpClose (file_path file)].
Proof. simpl. now rewrite <- !app_assoc. Qed.

(** C3.  With an empty index the handler answers 404 with the JSON object
    [{"error": "No directories with images found"}] and leaves the state
    as it was: no remote operation is issued and no random number drawn. *)
Theorem getRandomImage_empty_index (c : Context) (w : World) :
  directoriesWithImages w = [] ->
  exists c' : Context,
    handler c w = Some (c', w)
    /\ status c' = 404
    /\ body c' = JSONBody {[ "error" := "No directories with images found" ]}
    /\ (header c !! "Content-Type" = None ->
        header c' !! "Content-Type" = Some "application/json; charset=utf-8").
Proof.
  intros H. eexists. split; [exact (handler_empty_index c w H)|].
  repeat split. simpl. unfold writeContentType. intros ->.
  apply lookup_insert_eq.
Qed.

(** C4.  Once a directory is picked: a failed listing is answered 500, a
    listing without image file 404, a failed open or read of the picked
    file 500, each with a JSON object whose [error] is the message, which
    for 500 ends with the text of the underlying error.  The remote
    operations show the single listing, and at most one open and one read:
    nothing is tried again and no other directory is listed. *)
Theorem getRandomImage_failures (c : Context) (w : World) (randomDir : string) :
  pickedDir w = Some randomDir ->
  (forall err,
     client_ReadDir (sftpClient w) randomDir = Err err ->
     exists (c' : Context) (w' : World),
       handler c w = Some (c', w')
       /\ status c' = 500
       /\ body c' = JSONBody {[ "error" := "Failed to read directory: " +:+ Error err ]}
       /\ remote w' = remote w ++ [OpReadDir randomDir])
  /\ (forall entries,
        client_ReadDir (sftpClient w) randomDir = Ok entries ->
        List.filter (isImageEntry unicodeLower) entries = [] ->
        exists (c' : Context) (w' : World),
          handler c w = Some (c', w')
          /\ status c' = 404
          /\ body c' = JSONBody {[ "error" := "No images found in selected directory" ]}
          /\ remote w' = remote w ++ [OpReadDir randomDir])
  /\ (forall entries entry err,
        client_ReadDir (sftpClient w) randomDir = Ok entries ->
        pickedEntry unicodeLower w entries = Some entry ->
        client_Open (sftpClient w) (filepath.Join [randomDir; Name entry]) = Err err ->
        exists (c' : Context) (w' : World),
          handler c w = Some (c', w')
          /\ status c' = 500
          /\ body c' = JSONBody {[ "error" := "Failed to open image file: " +:+ Error err ]}
          /\ remote w' = remote w ++ [OpReadDir randomDir;
                                      OpOpen (filepath.Join [randomDir; Name entry])])
  /\ (forall entries entry file err,
        client_ReadDir (sftpClient w) randomDir = Ok entries ->
        pickedEntry unicodeLower w entries = Some entry ->
        client_Open (sftpClient w) (filepath.Join [randomDir; Name entry]) = Ok file ->
        file_read file = Err err ->
        exists (c' : Context) (w' : World),
          handler c w = Some (c', w')
          /\ status c' = 500
          /\ body c' = JSONBody {[ "error" := "Failed to read image file: " +:+ Error err ]}
          /\ remote w' = remote w ++ [OpReadDir randomDir;
                                      OpOpen (filepath.Join [randomDir; Name entry]);
                                      OpReadAll (file_path file);
                                      OpClose (file_path file)]).
Proof.
  intros Hdir. repeat split.
  - intros err Hread. eexists _, _.
    split; [exact (handler_listing_fails c w randomDir err Hdir Hread)|].
    now repeat split.
  - intros entries Hread Hnone. eexists _, _.
    split; [exact (handler_no_images c w randomDir entries Hdir Hread Hnone)|].
    now repeat split.
  - intros entries entry err Hread Hentry Hopen. eexists _, _.
    split; [exact (handler_open_fails c w randomDir entries entry err
                     Hdir Hread Hentry Hopen)|].
    repeat split. apply remote_opened.
  - intros entries entry file err Hread Hentry Hopen Hfile. eexists _, _.
    split; [exact (handler_read_fails c w randomDir entries entry file err
                     Hdir Hread Hentry Hopen Hfile)|].
    repeat split. apply remote_closed.
Qed.

Lemma c_Header_lookup (key value : string) (c : Context) :
  String.eqb value "" = false ->
  header (c_Header key value c) !! key = Some value.
Proof. intros H. unfold c_Header. simpl. rewrite H. apply lookup_insert_eq. Qed.

Lemma c_Header_lookup_ne (key value key' : string) (c : Context) :
  key <> key' ->
  header (c_Header key value c) !! key' = header c !! key'.
Proof.
  intros H. unfold c_Header. simpl. destruct (String.eqb value "").
  - now apply lookup_delete_ne.
  - now apply lookup_insert_ne.
Qed.

Lemma c_Data_header (code : nat) (contentType : string) data (c : Context) value :
  header c !! "Content-Type" = Some value ->
  header (c_Data code contentType data c) = header c.
Proof. intros H. unfold c_Data, writeContentType. simpl. now rewrite H. Qed.

(** C8.  A request whose listing, open and read all succeed is answered
    200 with the bytes read from the picked file as body.  The picked file
    is an image file of the listing; [Content-Type] is the type the
    classifier gives to its name, [X-Creation-Date] is its modification time
    in RFC 3339 form, and the three CORS headers allow any origin, the
    methods GET and OPTIONS and the request header [Content-Type]. *)
Theorem getRandomImage_success (c : Context) (w : World) (randomDir : string)
    (entries : list FileInfo) (entry : FileInfo) (file : File)
    (imageData : list Byte.byte) :
  pickedDir w = Some randomDir ->
  client_ReadDir (sftpClient w) randomDir = Ok entries ->
  pickedEntry unicodeLower w entries = Some entry ->
  client_Open (sftpClient w) (filepath.Join [randomDir; Name entry]) = Ok file ->
  file_read file = Ok imageData ->
  Format_RFC3339 (ModTime entry) <> "" ->
  exists (c' : Context) (w' : World),
    handler c w = Some (c', w')
    /\ status c' = 200
    /\ body c' = DataBody imageData
    /\ (In entry entries /\ IsDir entry = false
        /\ isImageFile unicodeLower (Name entry) = true)
    /\ header c' !! "Content-Type" = Some (getContentType unicodeLower (Name entry))
    /\ header c' !! "X-Creation-Date" = Some (Format_RFC3339 (ModTime entry))
    /\ header c' !! "Access-Control-Allow-Origin" = Some "*"
    /\ header c' !! "Access-Control-Allow-Methods" = Some "GET, OPTIONS"
    /\ header c' !! "Access-Control-Allow-Headers" = Some "Content-Type"
    /\ remote w' = remote w ++ [OpReadDir randomDir;
                                OpOpen (filepath.Join [randomDir; Name entry]);
                                OpReadAll (file_path file);
                                OpClose (file_path file)].
Proof.
  intros Hdir Hread Hentry Hopen Hfile Hfmt.
  destruct (pickedEntry_image _ _ _ Hentry) as (Hin & Hfileentry & Himage).
  eexists _, _.
  split; [exact (handler_serves c w randomDir entries entry file imageData
                   Hdir Hread Hentry Hopen Hfile)|].
  rewrite (getContentType_Join randomDir (Name entry) Himage).
  assert (Hf : String.eqb (Format_RFC3339 (ModTime entry)) "" = false)
    by now apply String.eqb_neq.
  pose proof (getContentType_nonempty (Name entry)) as Hct.
  split; [reflexivity|]. split; [reflexivity|]. split; [auto|].
  erewrite c_Data_header.
  2:{ rewrite c_Header_lookup_ne by discriminate. now apply c_Header_lookup. }
  repeat split.
  - rewrite c_Header_lookup_ne by discriminate. now apply c_Header_lookup.
  - now apply c_Header_lookup.
  - rewrite !c_Header_lookup_ne by discriminate. now apply c_Header_lookup.
  - rewrite !c_Header_lookup_ne by discriminate. now apply c_Header_lookup.
  - rewrite !c_Header_lookup_ne by discriminate. now apply c_Header_lookup.
  - apply remote_closed.
Qed.

(** The handler always answers: its two slice accesses are in range. *)
Lemma getRandomImage_answers (c : Context) (w : World) :
  exists (c' : Context) (w' : World),
    handler c w = Some (c', w')
    /\ (status c' = 200 \/ status c' = 404 \/ status c' = 500).
Proof.
  destruct (directoriesWithImages w) as [|d dirs] eqn:Edirs.
  { eexists _, _. split; [exact (handler_empty_index c w Edirs)|]. simpl. auto. }
  assert (Hdir : exists randomDir, pickedDir w = Some randomDir).
  { unfold pickedDir. apply lookup_lt_is_Some_2.
    rewrite Edirs. apply Nat.mod_upper_bound. discriminate. }
  destruct Hdir as [randomDir Hdir].
  destruct (client_ReadDir (sftpClient w) randomDir) as [entries|err] eqn:Hread.
  2:{ eexists _, _. split; [exact (handler_listing_fails c w randomDir err Hdir Hread)|].
      simpl. auto. }
  destruct (List.filter (isImageEntry unicodeLower) entries) as [|e es] eqn:Efilter.
  { eexists _, _. split; [exact (handler_no_images c w randomDir entries Hdir Hread Efilter)|].
    simpl. auto. }
  assert (Hentry : exists entry, pickedEntry unicodeLower w entries = Some entry).
  { unfold pickedEntry. apply lookup_lt_is_Some_2.
    rewrite Efilter. apply Nat.mod_upper_bound. discriminate. }
  destruct Hentry as [entry Hentry].
  destruct (client_Open (sftpClient w) (filepath.Join [randomDir; Name entry]))
    as [file|err] eqn:Hopen.
  2:{ eexists _, _.
      split; [exact (handler_open_fails c w randomDir entries entry err
                       Hdir Hread Hentry Hopen)|].
      simpl. auto. }
  destruct (file_read file) as [imageData|err] eqn:Hfile.
  2:{ eexists _, _.
      split; [exact (handler_read_fails c w randomDir entries entry file err
                       Hdir Hread Hentry Hopen Hfile)|].
      simpl. auto. }
  eexists _, _.
  split; [exact (handler_serves c w randomDir entries entry file imageData
                   Hdir Hread Hentry Hopen Hfile)|].
  simpl. auto.
Qed.

End HandlerFacts.

(** ** Names that are an extension and nothing else *)

Section HiddenNames.
Context {Time : Type}.
Variable unicodeLower : string -> string.

(** C10.  A name that is a recognized extension and nothing else is its own
    extension and is classified as an image.  A directory that holds a file
    of that name is put in the index by the walk of any tree it is in, and
    the handler keeps the file among the images of a listing. *)
Theorem extension_only_name_is_image (e : string) :
  In e imageExts ->
  filepath.Ext e = e
  /\ isImageFile unicodeLower e = true
  /\ (forall (t : Time) root tree p items,
        in_tree root tree p items -> In (IFile e t) items ->
        In p (imageDirs unicodeLower root tree))
  /\ (forall (entries : list (@FileInfo Time)) (t : Time) randomDir,
        In {| Name := e; IsDir := false; ModTime := t |} entries ->
        hasImages unicodeLower entries = true
        /\ In {| Path := filepath.Join [randomDir; e]; CreationDate := t |}
              (collectImages unicodeLower randomDir entries [])).
Proof.
  intros He.
  assert (Hext : filepath.Ext e = e).
  { unfold imageExts in He. simpl in He.
    repeat destruct He as [<-|He]; try reflexivity. destruct He. }
  assert (Himg : isImageFile unicodeLower e = true).
  { unfold imageExts in He. simpl in He.
    repeat destruct He as [<-|He]; try reflexivity. destruct He. }
  repeat split; try assumption.
  - intros t root tree p items Htree Hin.
    apply (imageDirs_complete unicodeLower root tree p items Htree).
    exists e, t. auto.
  - apply hasImages_entry. eexists. split; [eassumption|]. auto.
  - rewrite collectImages_filter. simpl. apply in_map_iff.
    exists {| Name := e; IsDir := false; ModTime := t |}. split; [reflexivity|].
    apply filter_In. split; [assumption|].
    unfold isImageEntry. simpl. now rewrite Himg.
Qed.

End HiddenNames.

(** ** The program on the example tree *)

(** Case analysis on membership in an explicit list. *)
Ltac in_cases H :=
  simpl in H;
  repeat match type of H with
         | _ \/ _ => destruct H as [H|H]
         | False => destruct H
         end.

Ltac no_such_item :=
  let H := fresh "H" in intros ? ? ? H; in_cases H; discriminate.

Lemma exTree_served : serves (exClient exTree) "/" exTree.
Proof.
  constructor; [reflexivity| |no_such_item].
  intros n t sub Hin. in_cases Hin; injection Hin as <- <- <-;
    (constructor; [reflexivity|no_such_item|no_such_item]).
Qed.

Lemma exTreeBad_served : serves (exClient exTreeBad) "/" exTreeBad.
Proof.
  constructor; [reflexivity| |].
  - intros n t sub Hin. in_cases Hin; try discriminate; injection Hin as <- <- <-;
      (constructor; [reflexivity|no_such_item|no_such_item]).
  - intros n t err Hin. in_cases Hin; try discriminate.
    injection Hin as <- <- <-. reflexivity.
Qed.

Lemma isImageFile_recognized_witness :
  (exists e, In e (map fst mimeTable) /\ equal_fold (filepath.Ext "photo.JPG") e)
  /\ isImageFile exLower "photo.JPG" = true.
Proof.
  assert (H : exists e, In e (map fst mimeTable)
                        /\ equal_fold (filepath.Ext "photo.JPG") e).
  { exists ".jpg". split; [now left|].
    repeat constructor; right; split; reflexivity. }
  split; [exact H|].
  exact (proj1 (proj2 (isImageFile_recognized exLower "photo.JPG")) H).
Defined.

Lemma getContentType_table_witness :
  In (".png", "image/png") mimeTable
  /\ equal_fold (filepath.Ext "/b/IMG.PnG") ".png"
  /\ getContentType exLower "/b/IMG.PnG" = "image/png".
Proof.
  assert (Hin : In (".png", "image/png") mimeTable) by (right; right; now left).
  assert (Hf : equal_fold (filepath.Ext "/b/IMG.PnG") ".png").
  { constructor; [now left|]. constructor; [right; split; reflexivity|].
    constructor; [now left|]. constructor; [right; split; reflexivity|].
    constructor. }
  split; [exact Hin|]. split; [exact Hf|].
  exact (proj1 (getContentType_table exLower "/b/IMG.PnG")
           ".png" "image/png" Hin (or_intror Hf)).
Defined.

Lemma classifier_domains_agree_witness :
  isImageFile exLower "scan.TIFF" = true
  /\ getContentType_switch
       (strings.ToLower exLower (filepath.Ext "scan.TIFF")) <> CaseDefault.
Proof.
  split; [reflexivity|].
  apply (proj1 (classifier_domains_agree exLower)). reflexivity.
Defined.

Lemma listFoldersRecursively_indexes_image_directories_witness :
  serves (exClient exTree) "/" exTree
  /\ all_readable exTree = true
  /\ height exTree < 2
  /\ exists w',
       listFoldersRecursively exLower 2 (exClient exTree) "/" ""
         (exStart (exClient exTree)) = Some (None, w')
       /\ directoriesWithImages w' = ["/a"; "/b"].
Proof.
  assert (Hh : height exTree < 2) by (vm_compute; lia).
  split; [exact exTree_served|]. split; [reflexivity|]. split; [exact Hh|].
  destruct (listFoldersRecursively_indexes_image_directories exLower
              (exClient exTree) "/" "" exTree (exStart (exClient exTree))
              exTree_served eq_refl 2 Hh) as (w' & Hrun & Hidx & _).
  exists w'. split; [exact Hrun|]. rewrite Hidx. reflexivity.
Defined.

Lemma listFoldersRecursively_survives_unreadable_witness :
  serves (exClient exTreeBad) "/" exTreeBad
  /\ unreadable_in "/" exTreeBad "/d" exDenied
  /\ height exTreeBad < 2
  /\ exists w',
       listFoldersRecursively exLower 2 (exClient exTreeBad) "/" ""
         (exStart (exClient exTreeBad)) = Some (None, w')
       /\ directoriesWithImages w' = ["/a"; "/b"; "/e"]
       /\ In (line_error "/d" exDenied) (stdout w').
Proof.
  assert (Hh : height exTreeBad < 2) by (vm_compute; lia).
  assert (Hbad : unreadable_in "/" exTreeBad "/d" exDenied).
  { apply (unreadable_here "/" exTreeBad "d" 4 exDenied). right. now left. }
  split; [exact exTreeBad_served|]. split; [exact Hbad|]. split; [exact Hh|].
  destruct (listFoldersRecursively_survives_unreadable exLower
              (exClient exTreeBad) "/" "" exTreeBad (exStart (exClient exTreeBad))
              "/d" exDenied exTreeBad_served Hbad 2 Hh)
    as (w' & Hrun & Hidx & _ & Hline).
  exists w'. split; [exact Hrun|]. split; [|exact Hline].
  rewrite Hidx. reflexivity.
Defined.

Lemma listFoldersRecursively_root_failure_witness :
  client_ReadDir exClientDown "/" = Err exLost
  /\ exists w',
       main_index exLower 1 exClientDown (exStart exClientDown) = Some (tt, w')
       /\ directoriesWithImages w' = []
       /\ remote w' = [OpReadDir "/"].
Proof.
  split; [reflexivity|].
  destruct (proj2 (listFoldersRecursively_root_failure exLower exClientDown
                     "/" "" exLost (exStart exClientDown) 0 eq_refl) eq_refl)
    as (w' & Hrun & Hidx & _ & Hops).
  exists w'. split; [exact Hrun|]. split; [exact Hidx|exact Hops].
Defined.

Lemma getRandomImage_empty_index_witness :
  directoriesWithImages (exStart (exClient exTree)) = []
  /\ exists c',
       getRandomImage exFormat exLower newContext (exStart (exClient exTree))
       = Some (c', exStart (exClient exTree))
       /\ status c' = 404.
Proof.
  split; [reflexivity|].
  destruct (getRandomImage_empty_index exFormat exLower newContext
              (exStart (exClient exTree)) eq_refl) as (c' & Hrun & Hst & _).
  exists c'. split; [exact Hrun|exact Hst].
Defined.

Lemma getRandomImage_failures_witness :
  (pickedDir (exServing 3) = Some "/d"
   /\ exists c' w',
        getRandomImage exFormat exLower newContext (exServing 3) = Some (c', w')
        /\ status c' = 500
        /\ body c' = JSONBody
             {[ "error" := "Failed to read directory: permission denied" ]})
  /\ (pickedDir (exServing 2) = Some "/c"
      /\ exists c' w',
           getRandomImage exFormat exLower newContext (exServing 2) = Some (c', w')
           /\ status c' = 404)
  /\ (pickedDir (exServing 1) = Some "/b"
      /\ exists c' w',
           getRandomImage exFormat exLower newContext (exServing 1) = Some (c', w')
           /\ status c' = 500
           /\ body c' = JSONBody
                {[ "error" := "Failed to open image file: file does not exist" ]})
  /\ (pickedDir (exServing 4) = Some "/e"
      /\ exists c' w',
           getRandomImage exFormat exLower newContext (exServing 4) = Some (c', w')
           /\ status c' = 500
           /\ body c' = JSONBody
                {[ "error" := "Failed to read image file: connection lost" ]}).
Proof.
  split; [|split; [|split]]; (split; [reflexivity|]).
  - destruct (proj1 (getRandomImage_failures exFormat exLower newContext
                       (exServing 3) "/d" eq_refl) exDenied eq_refl)
      as (c' & w' & Hrun & Hst & Hbody & _).
    exists c', w'. auto.
  - destruct (proj1 (proj2 (getRandomImage_failures exFormat exLower newContext
                              (exServing 2) "/c" eq_refl)) [] eq_refl eq_refl)
      as (c' & w' & Hrun & Hst & _).
    exists c', w'. auto.
  - destruct (proj1 (proj2 (proj2 (getRandomImage_failures exFormat exLower
                                     newContext (exServing 1) "/b" eq_refl)))
                (map entry_of exB) (entry_of (IFile "img.png" 12)) exMissing
                eq_refl eq_refl eq_refl)
      as (c' & w' & Hrun & Hst & Hbody & _).
    exists c', w'. auto.
  - destruct (proj2 (proj2 (proj2 (getRandomImage_failures exFormat exLower
                                     newContext (exServing 4) "/e" eq_refl)))
                (map entry_of exE) (entry_of (IFile ".gif" 13))
                {| file_path := "/e/.gif"; file_read := Err exLost |} exLost
                eq_refl eq_refl eq_refl eq_refl)
      as (c' & w' & Hrun & Hst & Hbody & _).
    exists c', w'. auto.
Defined.

Lemma getRandomImage_success_witness :
  pickedDir (exServing 0) = Some "/a"
  /\ pickedEntry exLower (exServing 0) (map entry_of exA)
     = Some (entry_of (IFile "photo.JPG" 10))
  /\ exFormat 10 <> ""
  /\ exists c' w',
       getRandomImage exFormat exLower newContext (exServing 0) = Some (c', w')
       /\ status c' = 200
       /\ body c' = DataBody [Byte.xff; Byte.xd8; Byte.xff]
       /\ header c' !! "Content-Type" = Some "image/jpeg"
       /\ header c' !! "X-Creation-Date" = Some "2024-05-01T12:00:00Z".
Proof.
  assert (Hfmt : exFormat 10 <> "") by discriminate.
  split; [reflexivity|]. split; [reflexivity|]. split; [exact Hfmt|].
  destruct (getRandomImage_success exFormat exLower newContext (exServing 0) "/a"
              (map entry_of exA) (entry_of (IFile "photo.JPG" 10))
              {| file_path := "/a/photo.JPG";
                 file_read := Ok [Byte.xff; Byte.xd8; Byte.xff] |}
              [Byte.xff; Byte.xd8; Byte.xff]
              eq_refl eq_refl eq_refl eq_refl eq_refl Hfmt)
    as (c' & w' & Hrun & Hst & Hbody & _ & Hct & Hdate & _).
  exists c', w'. auto.
Defined.

Lemma extension_only_name_is_image_witness :
  In ".jpg" imageExts
  /\ filepath.Ext ".jpg" = ".jpg"
  /\ isImageFile exLower ".jpg" = true.
Proof.
  assert (H : In ".jpg" imageExts) by now left.
  split; [exact H|].
  destruct (extension_only_name_is_image (Time := nat) exLower ".jpg" H)
    as (Hext & Himg & _).
  split; [exact Hext|exact Himg].
Defined.

(** ** Runs on concrete inputs *)

Example Ext_examples :
  filepath.Ext "photo.JPG" = ".JPG" /\ filepath.Ext "a/b.tar.gz" = ".gz"
  /\ filepath.Ext "a.b/notes" = "" /\ filepath.Ext ".jpg" = ".jpg"
  /\ filepath.Ext ".." = ".".
Proof. repeat split. Qed.

Example Clean_examples :
  filepath.Clean "/a/../b//c/./d.jpg" = "/b/c/d.jpg"
  /\ filepath.Clean "abc/def/../../../ghi" = "../ghi"
  /\ filepath.Clean "/../a/b/../.." = "/"
  /\ filepath.Clean "a/.." = "."
  /\ filepath.Clean "" = ".".
Proof. repeat split. Qed.

Example Join_examples :
  filepath.Join ["/"; "a"] = "/a" /\ filepath.Join ["/a"; "photo.JPG"] = "/a/photo.JPG"
  /\ filepath.Join [""; "a"] = "a" /\ filepath.Join ["/a"; ".."] = "/".
Proof. repeat split. Qed.

Example Base_examples :
  filepath.Base "/" = "/" /\ filepath.Base "/a/b//" = "b" /\ filepath.Base "" = ".".
Proof. repeat split. Qed.

Example classifier_examples :
  isImageFile exLower "photo.JPG" = true
  /\ getContentType exLower "photo.JPG" = "image/jpeg"
  /\ isImageFile exLower "notes.txt" = false
  /\ isImageFile exLower "jpg" = false
  /\ getContentType exLower "notes.txt" = "image/jpeg".
Proof. repeat split. Qed.

(** The scenario of the specification: [/a] and [/b] are indexed, [/c] is
    not. *)
Example index_of_example_tree :
  option_map (fun r => directoriesWithImages (snd r))
    (listFoldersRecursively exLower 2 (exClient exTree) "/" ""
       (exStart (exClient exTree)))
  = Some ["/a"; "/b"].
Proof. reflexivity. Qed.

(** With too little fuel the model does not return. *)
Example index_needs_fuel :
  listFoldersRecursively exLower 1 (exClient exTree) "/" ""
    (exStart (exClient exTree)) = None.
Proof. reflexivity. Qed.

Example request_on_example_tree :
  option_map (fun r => (status (fst r), body (fst r), remote (snd r)))
    (getRandomImage exFormat exLower newContext (exServing 0))
  = Some (200, DataBody [Byte.xff; Byte.xd8; Byte.xff],
          [OpReadDir "/a"; OpOpen "/a/photo.JPG";
           OpReadAll "/a/photo.JPG"; OpClose "/a/photo.JPG"]).
Proof. reflexivity. Qed.

(** * Further properties *)

(** ** Requests *)

(** Case analysis on an operation of an explicit list of operations. *)
Ltac in_ops H :=
  cbn [In] in H;
  repeat match type of H with
         | _ \/ _ => destruct H as [H|H]
         | False => destruct H
         end;
  try discriminate;
  try match type of H with
      | ?f ?a = ?f ?b =>
          let E := fresh "E" in
          assert (E : b = a) by congruence; clear H; subst b
      end.

Section RequestFacts.
Context {Time : Type}.
Variable Format_RFC3339 : Time -> string.
Variable unicodeLower : string -> string.

Local Abbreviation handler := (getRandomImage Format_RFC3339 unicodeLower).
Local Abbreviation answer := (answer Format_RFC3339 unicodeLower).
Local Abbreviation World := (@World Time).
Local Abbreviation FileInfo := (@FileInfo Time).

(** Every request is answered, in one of the six ways of [answer]. *)
Lemma handler_answer (c : Context) (w : World) :
  exists (c' : Context) (w' : World),
    handler c w = Some (c', w') /\ answer c w c' w'.
Proof.
  destruct (directoriesWithImages w) as [|d dirs] eqn:Edirs.
  { eexists _, _. split; [exact (handler_empty_index _ _ c w Edirs)|].
    now constructor. }
  assert (Hdir : exists randomDir, pickedDir w = Some randomDir).
  { unfold pickedDir. apply lookup_lt_is_Some_2.
    rewrite Edirs. apply Nat.mod_upper_bound. discriminate. }
  destruct Hdir as [randomDir Hdir].
  destruct (client_ReadDir (sftpClient w) randomDir) as [entries|err] eqn:Hread.
  2:{ eexists _, _.
      split; [exact (handler_listing_fails _ _ c w randomDir err Hdir Hread)|].
      now apply answer_unlisted. }
  destruct (List.filter (isImageEntry unicodeLower) entries) as [|e es] eqn:Efilter.
  { eexists _, _.
    split; [exact (handler_no_images _ _ c w randomDir entries Hdir Hread Efilter)|].
    now apply (answer_no_images _ _ c w randomDir entries). }
  assert (Hentry : exists entry, pickedEntry unicodeLower w entries = Some entry).
  { unfold pickedEntry. apply lookup_lt_is_Some_2.
    rewrite Efilter. apply Nat.mod_upper_bound. discriminate. }
  destruct Hentry as [entry Hentry].
  destruct (client_Open (sftpClient w) (filepath.Join [randomDir; Name entry]))
    as [file|err] eqn:Hopen.
  2:{ eexists _, _.
      split; [exact (handler_open_fails _ _ c w randomDir entries entry err
                       Hdir Hread Hentry Hopen)|].
      now apply (answer_unopened _ _ c w randomDir entries). }
  destruct (file_read file) as [imageData|err] eqn:Hfile.
  2:{ eexists _, _.
      split; [exact (handler_read_fails _ _ c w randomDir entries entry file err
                       Hdir Hread Hentry Hopen Hfile)|].
      now apply (answer_unread _ _ c w randomDir entries). }
  eexists _, _.
  split; [exact (handler_serves _ _ c w randomDir entries entry file imageData
                   Hdir Hread Hentry Hopen Hfile)|].
  now apply (answer_image _ _ c w randomDir entries).
Qed.

Lemma handler_answer_inv (c c' : Context) (w w' : World) :
  handler c w = Some (c', w') -> answer c w c' w'.
Proof.
  intros H. destruct (handler_answer c w) as (c1 & w1 & Hrun & Hans).
  rewrite Hrun in H. injection H as <- <-. exact Hans.
Qed.

Lemma remote_of_answer (c c' : Context) (w w' : World) :
  answer c w c' w' ->
  directoriesWithImages w' = directoriesWithImages w
  /\ sftpClient w' = sftpClient w
  /\ stdout w' = stdout w
  /\ rand_source w' = rand_source w.
Proof. intros H. destruct H; repeat split. Qed.

(** X1.  [handleOptions] answers 200 with the three CORS headers, keeps the
    body and every other header of the context, and leaves the state as it
    was: no remote operation, no random number. *)
Theorem handleOptions_preflight (c : Context) (w : World) :
  exists c' : Context,
    handleOptions c w = Some (c', w)
    /\ status c' = 200
    /\ body c' = body c
    /\ header c' !! "Access-Control-Allow-Origin" = Some "*"
    /\ header c' !! "Access-Control-Allow-Methods" = Some "GET, OPTIONS"
    /\ header c' !! "Access-Control-Allow-Headers" = Some "Content-Type"
    /\ (forall key,
          key <> "Access-Control-Allow-Origin" ->
          key <> "Access-Control-Allow-Methods" ->
          key <> "Access-Control-Allow-Headers" ->
          header c' !! key = header c !! key).
Proof.
  eexists. split; [reflexivity|]. cbn [status body c_Status header].
  repeat split.
  - rewrite !c_Header_lookup_ne by discriminate. now apply c_Header_lookup.
  - rewrite !c_Header_lookup_ne by discriminate. now apply c_Header_lookup.
  - now apply c_Header_lookup.
  - intros key H1 H2 H3. now rewrite !c_Header_lookup_ne by congruence.
Qed.

(** X2.  [getRandomImage] never panics: whatever the index, the random
    numbers and the answers of the remote side, both slice accesses are in
    range and [rand.Intn] gets a positive bound.  The status is 200 with the
    raw bytes as body, or 404 or 500 with a JSON object as body. *)
Theorem getRandomImage_always_answers (c : Context) (w : World) :
  exists (c' : Context) (w' : World),
    handler c w = Some (c', w')
    /\ ((status c' = 200 /\ exists data, body c' = DataBody data)
        \/ ((status c' = 404 \/ status c' = 500)
            /\ exists msg, body c' = JSONBody {[ "error" := msg ]})).
Proof.
  destruct (handler_answer c w) as (c' & w' & Hrun & Hans).
  exists c', w'. split; [exact Hrun|].
  destruct Hans; cbn [status body c_JSON c_Data gin_H_error]; eauto 6.
Qed.

(** X3.  A request only reads the index: it leaves the index, the client,
    the output and the random source as they were, draws at most two random
    numbers, and adds at most four remote operations after those already
    issued. *)
Theorem getRandomImage_frame (c c' : Context) (w w' : World) :
  handler c w = Some (c', w') ->
  directoriesWithImages w' = directoriesWithImages w
  /\ sftpClient w' = sftpClient w
  /\ stdout w' = stdout w
  /\ rand_source w' = rand_source w
  /\ rand_drawn w <= rand_drawn w' <= rand_drawn w + 2
  /\ exists ops, remote w' = remote w ++ ops /\ length ops <= 4.
Proof.
  intros H. apply handler_answer_inv in H.
  destruct (remote_of_answer _ _ _ _ H) as (H1 & H2 & H3 & H4).
  repeat split; try assumption.
  - destruct H; simpl; lia.
  - destruct H; simpl; lia.
  - destruct H.
    + exists []. split; [now rewrite app_nil_r|simpl; lia].
    + eexists. split; [apply remote_listed|simpl; lia].
    + eexists. split; [apply remote_listed|simpl; lia].
    + eexists. split; [apply remote_opened|simpl; lia].
    + eexists. split; [apply remote_closed|simpl; lia].
    + eexists. split; [apply remote_closed|simpl; lia].
Qed.

(** X4.  A request closes what it opens: among the remote operations it
    adds, the open of a path whose open succeeds is followed by the close
    of that file, on the success path and when the read fails alike, and
    no file is closed that was not opened. *)
Theorem getRandomImage_closes_what_it_opens (c c' : Context) (w w' : World) :
  handler c w = Some (c', w') ->
  exists ops,
    remote w' = remote w ++ ops
    /\ (forall path file,
          In (OpOpen path) ops ->
          client_Open (sftpClient w) path = Ok file ->
          In (OpClose (file_path file)) ops)
    /\ (forall closedPath,
          In (OpClose closedPath) ops ->
          exists path file,
            In (OpOpen path) ops
            /\ client_Open (sftpClient w) path = Ok file
            /\ file_path file = closedPath).
Proof.
  intros H. apply handler_answer_inv in H. destruct H.
  - exists []. rewrite app_nil_r. repeat split; intros; contradiction.
  - eexists. split; [apply remote_listed|].
    split; [intros ? ? Hin|intros ? Hin]; in_ops Hin.
  - eexists. split; [apply remote_listed|].
    split; [intros ? ? Hin|intros ? Hin]; in_ops Hin.
  - eexists. split; [apply remote_opened|].
    split; [intros ? ? Hin Hok|intros ? Hin]; in_ops Hin. congruence.
  - eexists. split; [apply remote_closed|].
    split; [intros ? ? Hin Hok|intros ? Hin]; in_ops Hin.
    + assert (file0 = file) by congruence. subst. simpl. auto.
    + exists (filepath.Join [randomDir; Name entry]), file. simpl. auto.
  - eexists. split; [apply remote_closed|].
    split; [intros ? ? Hin Hok|intros ? Hin]; in_ops Hin.
    + assert (file0 = file) by congruence. subst. simpl. auto.
    + exists (filepath.Join [randomDir; Name entry]), file. simpl. auto.
Qed.

(** X5.  An error answer carries no CORS header: on a fresh context every
    answer other than 200 has the JSON content type as its only header and
    a JSON object with the single key [error] as body. *)
Theorem getRandomImage_error_without_cors (c' : Context) (w w' : World) :
  handler newContext w = Some (c', w') ->
  status c' <> 200 ->
  header c' = {[ "Content-Type" := "application/json; charset=utf-8" ]}
  /\ header c' !! "Access-Control-Allow-Origin" = None
  /\ exists msg, body c' = JSONBody {[ "error" := msg ]}.
Proof.
  intros H Hst. apply handler_answer_inv in H.
  assert (Hhdr : forall code obj,
            header (c_JSON code obj newContext) =
            {[ "Content-Type" := "application/json; charset=utf-8" ]}).
  { intros code obj. reflexivity. }
  destruct H; try (cbn [status c_Data] in Hst; congruence);
    rewrite Hhdr; (split; [reflexivity|]); (split; [reflexivity|]);
    cbn [body c_JSON gin_H_error]; eauto.
Qed.

End RequestFacts.

(** ** The walk on an arbitrary remote side *)

Section WalkFacts.
Context {Time : Type}.
Variable unicodeLower : string -> string.

Local Abbreviation walk := (listFoldersRecursively unicodeLower).
Local Abbreviation World := (@World Time).
Local Abbreviation Item := (@Item Time).
Local Abbreviation FileInfo := (@FileInfo Time).
Local Abbreviation Client := (@Client Time).
Local Abbreviation sound_additions := (sound_additions unicodeLower).

Lemma sound_additions_nil (client : Client) : sound_additions client [] [].
Proof. split; intros ? []. Qed.

Lemma sound_additions_app (client : Client) dirs ops dirs' ops' :
  sound_additions client dirs ops -> sound_additions client dirs' ops' ->
  sound_additions client (dirs ++ dirs') (ops ++ ops').
Proof.
  intros [H1 H2] [H1' H2']. split; intros x Hx;
    apply in_app_iff in Hx as [Hx|Hx]; auto.
Qed.

Lemma sound_additions_listing (client : Client) (p : string) :
  sound_additions client [] [OpReadDir p].
Proof. split; [intros ? []|]. intros op [<-|[]]. eauto. Qed.

Lemma descend_any_client (client : Client) (f : nat) (path indent : string) :
  (forall p ind (w w' : World) r,
     walk f client p ind w = Some (r, w') ->
     exists dirs lines ops,
       w' = extend w dirs lines ops /\ sound_additions client dirs ops) ->
  forall (entries : list FileInfo) (w w' : World),
    descend (walk f client) path indent entries w = Some (tt, w') ->
    exists dirs lines ops,
      w' = extend w dirs lines ops /\ sound_additions client dirs ops.
Proof.
  intros IH. induction entries as [|e entries IHe]; intros w w' H.
  - cbn [descend] in H. unfold ret in H. injection H as <-.
    exists [], [], []. split; [now rewrite extend_nil|apply sound_additions_nil].
  - cbn [descend] in H. unfold bind at 1 in H.
    destruct (IsDir e).
    + unfold bind at 1 in H.
      destruct (walk f client (filepath.Join [path; Name e]) (indent +:+ "  ") w)
        as [[r w1]|] eqn:Hrec; [|discriminate].
      destruct (IH _ _ _ _ _ Hrec) as (d1 & l1 & o1 & -> & Hs1).
      destruct r as [err|].
      * unfold modify at 1 in H.
        destruct (IHe _ _ H) as (d2 & l2 & o2 & -> & Hs2).
        rewrite Printf_extend, !extend_extend.
        eexists _, _, _. split; [reflexivity|].
        cbn [app].
        now apply sound_additions_app.
      * unfold ret at 1 in H.
        destruct (IHe _ _ H) as (d2 & l2 & o2 & -> & Hs2).
        rewrite !extend_extend.
        eexists _, _, _. split; [reflexivity|].
        now apply sound_additions_app.
    + unfold ret at 1 in H. now apply IHe.
Qed.

Lemma walk_any_client (client : Client) :
  forall (fuel : nat) p ind (w w' : World) r,
    walk fuel client p ind w = Some (r, w') ->
    r = match client_ReadDir client p with
        | Err err => Some err
        | Ok _ => None
        end
    /\ exists dirs lines ops,
         w' = extend w dirs lines ops /\ sound_additions client dirs ops.
Proof.
  induction fuel as [|f IH]; intros p ind w w' r H; [discriminate|].
  cbn [listFoldersRecursively] in H.
  unfold bind at 1 in H. unfold ReadDir in H. unfold bind at 1 in H.
  unfold modify at 1 in H. unfold ret at 1 in H.
  destruct (client_ReadDir client p) as [entries|err] eqn:Hread.
  - unfold bind at 1 in H.
    assert (Hdesc : forall w1 w2 : World,
              descend (walk f client) p ind entries w1 = Some (tt, w2) ->
              exists dirs lines ops,
                w2 = extend w1 dirs lines ops /\ sound_additions client dirs ops).
    { apply descend_any_client. intros p' ind' w1 w2 r' H'.
      now destruct (IH _ _ _ _ _ H') as [_ ?]. }
    destruct (hasImages unicodeLower entries) eqn:Himg.
    + unfold bind at 1 in H. unfold modify at 1 2 in H.
      unfold bind at 1 in H.
      match type of H with
      | match descend ?r ?p ?i ?e ?w0 with _ => _ end = _ =>
          destruct (descend r p i e w0) as [[[] w1]|] eqn:Hd; [|discriminate]
      end.
      unfold ret in H. injection H as <- <-. split; [reflexivity|].
      destruct (Hdesc _ _ Hd) as (d2 & l2 & o2 & -> & Hs2).
      rewrite issue_extend, append_dir_extend, Printf_extend, !extend_extend.
      eexists _, _, _. split; [reflexivity|]. simpl.
      apply (sound_additions_app client [p] [OpReadDir p]); [|assumption].
      split.
      * intros d [<-|[]]. eauto.
      * intros op [<-|[]]. eauto.
    + unfold modify at 1 in H. unfold bind at 1 in H.
      match type of H with
      | match descend ?r ?p ?i ?e ?w0 with _ => _ end = _ =>
          destruct (descend r p i e w0) as [[[] w1]|] eqn:Hd; [|discriminate]
      end.
      unfold ret in H. injection H as <- <-. split; [reflexivity|].
      destruct (Hdesc _ _ Hd) as (d2 & l2 & o2 & -> & Hs2).
      rewrite issue_extend, Printf_extend, !extend_extend.
      eexists _, _, _. split; [reflexivity|]. simpl.
      apply (sound_additions_app client [] [OpReadDir p]); [|assumption].
      apply sound_additions_listing.
  - injection H as <- <-. split; [reflexivity|].
    exists [], [], [OpReadDir p]. split; [apply issue_extend|].
    apply sound_additions_listing.
Qed.

(** X6.  On any remote side, cyclic or changing its answers from path to
    path, a walk that returns gives back the error of its own listing and
    nothing else: failures below the start directory are never passed
    on. *)
Theorem listFoldersRecursively_returns_own_error
    (fuel : nat) (client : Client) (path indent : string) (w w' : World)
    (r : option error) :
  walk fuel client path indent w = Some (r, w') ->
  (forall err, r = Some err <-> client_ReadDir client path = Err err)
  /\ (r = None <-> exists entries, client_ReadDir client path = Ok entries).
Proof.
  intros H. destruct (walk_any_client client _ _ _ _ _ _ H) as [-> _].
  destruct (client_ReadDir client path) as [entries|err0].
  - split; [intros err; split; discriminate|]. split; eauto.
  - split.
    + intros err. split; congruence.
    + split; [discriminate|]. intros [? ?]. discriminate.
Qed.

(** X7.  On any remote side the walk only appends: the index, the output
    and the remote operations it leaves are those it found, followed by
    what it adds; the client and the random source are untouched.  Every
    path it adds to the index is one whose listing succeeded and showed an
    image file, and every remote operation it issues is a listing: the
    walk never opens or reads a file. *)
Theorem listFoldersRecursively_appends_only
    (fuel : nat) (client : Client) (path indent : string) (w w' : World)
    (r : option error) :
  walk fuel client path indent w = Some (r, w') ->
  exists dirs lines ops,
    directoriesWithImages w' = directoriesWithImages w ++ dirs
    /\ stdout w' = stdout w ++ lines
    /\ remote w' = remote w ++ ops
    /\ sftpClient w' = sftpClient w
    /\ rand_source w' = rand_source w
    /\ rand_drawn w' = rand_drawn w
    /\ (forall d, In d dirs ->
          exists entries, client_ReadDir client d = Ok entries
                          /\ hasImages unicodeLower entries = true)
    /\ (forall op, In op ops -> exists p, op = OpReadDir p).
Proof.
  intros H.
  destruct (walk_any_client client _ _ _ _ _ _ H)
    as (_ & dirs & lines & ops & -> & Hd & Ho).
  exists dirs, lines, ops. repeat split; assumption.
Qed.

Lemma descend_diverges (recurse : string -> string -> @M Time (option error))
    (path indent : string) :
  (forall p ind w, recurse p ind w = None) ->
  forall (entries : list FileInfo) (w : World),
    (exists e, In e entries /\ IsDir e = true) ->
    descend recurse path indent entries w = None.
Proof.
  intros Hrec. induction entries as [|e entries IH]; intros w (x & Hin & Hx).
  - destruct Hin.
  - cbn [descend]. unfold bind at 1. destruct (IsDir e) eqn:Ee.
    + unfold bind at 1. now rewrite Hrec.
    + unfold ret at 1. apply IH. destruct Hin as [->|Hin]; [congruence|eauto].
Qed.

(** X8.  The walk has no cycle guard: on a remote side where every listing
    succeeds and shows a directory, it does not return, whatever the
    fuel. *)
Theorem listFoldersRecursively_no_cycle_guard (client : Client) :
  (forall p, exists entries,
     client_ReadDir client p = Ok entries
     /\ exists e, In e entries /\ IsDir e = true) ->
  forall (fuel : nat) (path indent : string) (w : World),
    walk fuel client path indent w = None.
Proof.
  intros Hloop. induction fuel as [|f IH]; intros path indent w; [reflexivity|].
  destruct (Hloop path) as (entries & Hread & Hdir).
  cbn [listFoldersRecursively].
  unfold bind at 1. unfold ReadDir. unfold bind at 1. unfold modify at 1.
  unfold ret at 1. rewrite Hread. unfold bind at 1.
  destruct (hasImages unicodeLower entries).
  - unfold bind at 1. unfold modify at 1 2. unfold bind at 1.
    now rewrite (descend_diverges _ path indent IH entries _ Hdir).
  - unfold modify at 1. unfold bind at 1.
    now rewrite (descend_diverges _ path indent IH entries _ Hdir).
Qed.

Lemma walkOps_item_length (parent : string) (it : Item) :
  length (walkOps_item parent it) = countDirs_item it.
Proof.
  revert parent.
  induction it as [n t|n t sub IH|n t err] using Item_nested_ind;
    intros parent; cbn [walkOps_item countDirs_item]; try reflexivity.
  cbn [length]. f_equal.
  generalize (filepath.Join [parent; n]). intros path.
  induction sub as [|x sub IHsub]; [reflexivity|].
  inversion IH as [|? ? Hx Hsub]; subst.
  cbn [flat_map map list_sum]. rewrite length_app, Hx, IHsub by assumption.
  reflexivity.
Qed.

Lemma walkOps_length (root : string) (tree : list Item) :
  length (walkOps root tree) = S (countDirs tree).
Proof.
  unfold walkOps, countDirs. cbn [length]. f_equal.
  induction tree as [|x tree IH]; [reflexivity|].
  cbn [flat_map map list_sum]. now rewrite length_app, walkOps_item_length, IH.
Qed.

Lemma walkOps_item_dir (parent : string) n t (sub : list Item) :
  walkOps_item parent (IDir n t sub) = walkOps (filepath.Join [parent; n]) sub.
Proof. reflexivity. Qed.

Lemma walkOps_in_tree (root : string) (tree : list Item) p (items : list Item) :
  in_tree root tree p items -> In (OpReadDir p) (walkOps root tree).
Proof.
  induction 1 as [root tree|root tree n t sub p items Hin Ht IH].
  - now left.
  - right. apply in_flat_map. exists (IDir n t sub). split; [assumption|].
    now rewrite walkOps_item_dir.
Qed.

Lemma walkOps_unreadable (root : string) (tree : list Item) p err :
  unreadable_in root tree p err -> In (OpReadDir p) (walkOps root tree).
Proof.
  induction 1 as [root tree n t err Hin|root tree n t sub p err Hin Hu IH];
    right; apply in_flat_map.
  - exists (IUnreadable n t err). split; [assumption|]. now left.
  - exists (IDir n t sub). split; [assumption|]. now rewrite walkOps_item_dir.
Qed.

(** X9.  The walk of a served tree issues as many listings as the tree has
    directories, its root included: one for every readable directory and
    one for every unreadable one, none of them tried again. *)
Theorem listFoldersRecursively_one_listing_each
    (client : Client) (root indent : string) (tree : list Item) (w : World)
    (fuel : nat) :
  serves client root tree ->
  height tree < fuel ->
  exists (w' : World) ops,
    walk fuel client root indent w = Some (None, w')
    /\ remote w' = remote w ++ ops
    /\ length ops = S (countDirs tree)
    /\ (forall p items, in_tree root tree p items -> In (OpReadDir p) ops)
    /\ (forall p err, unreadable_in root tree p err -> In (OpReadDir p) ops).
Proof.
  intros Hs Hh. eexists _, (walkOps root tree).
  split; [exact (walk_tree unicodeLower client fuel root indent tree w Hs Hh)|].
  split; [reflexivity|]. split; [apply walkOps_length|].
  split; [apply walkOps_in_tree|apply walkOps_unreadable].
Qed.

End WalkFacts.

(** ** Configuration and startup *)

Lemma getEnv_unset_default (env : gmap string string) (key : string) :
  getEnv env key "" = os_Getenv env key.
Proof.
  unfold getEnv. destruct (String.eqb_spec (os_Getenv env key) "") as [->|];
    reflexivity.
Qed.

(** X10.  [getEnv] gives the value of a variable that is set to a string
    other than the empty one, and the default otherwise: a variable set to
    the empty string counts as not set.  With a default that is not empty
    the result is never empty.  Setting one variable changes the result
    for no other. *)
Theorem getEnv_value_or_default (env : gmap string string) (key defaultValue : string) :
  (forall value, env !! key = Some value -> value <> "" ->
     getEnv env key defaultValue = value)
  /\ (env !! key = None \/ env !! key = Some "" ->
      getEnv env key defaultValue = defaultValue)
  /\ (defaultValue <> "" -> getEnv env key defaultValue <> "")
  /\ (forall value, value <> "" ->
        getEnv (<[key := value]> env) key defaultValue = value)
  /\ (forall other value, other <> key ->
        getEnv (<[other := value]> env) key defaultValue
        = getEnv env key defaultValue).
Proof.
  unfold getEnv, os_Getenv. repeat split.
  - intros value -> Hne. simpl. now apply String.eqb_neq in Hne as ->.
  - intros [->| ->]; reflexivity.
  - intros Hd. destruct (env !! key) as [value|]; simpl; [|assumption].
    destruct (String.eqb_spec value ""); simpl; assumption.
  - intros value Hne. rewrite lookup_insert_eq. simpl.
    now apply String.eqb_neq in Hne as ->.
  - intros other value Hne. now rewrite lookup_insert_ne.
Qed.

Section StartupFacts.
Context {Time Conn : Type}.
Variable Format_RFC3339 : Time -> string.
Variable unicodeLower : string -> string.

Local Abbreviation handler := (getRandomImage Format_RFC3339 unicodeLower).
Local Abbreviation walk := (listFoldersRecursively unicodeLower).
Local Abbreviation startup := (@main Time Conn unicodeLower).
Local Abbreviation World := (@World Time).
Local Abbreviation Client := (@Client Time).
Local Abbreviation Network := (@Network Time Conn).
Local Abbreviation Item := (@Item Time).

(** The state after the warning about a [.env] file that did not load. *)
Lemma main_warning (dotenv : option error) (w : World) :
  exists lines,
    (match dotenv with
     | Some err =>
         bind (modify (Printf ("Warning: Error loading .env file: "
                                 +:+ Error err +:+ newline)))
           (fun _ => modify (Printf ("Continuing with system environment variables..."
                                       +:+ newline)))
     | None => ret tt
     end) w = Some (tt, extend w [] lines [])
    /\ (dotenv = None -> lines = []).
Proof.
  destruct dotenv as [err|].
  - eexists. unfold bind, modify. rewrite !Printf_extend, extend_extend.
    split; [reflexivity|discriminate].
  - exists []. unfold ret. rewrite extend_nil. auto.
Qed.

Lemma credentials_present (env : gmap string string) :
  os_Getenv env "SSH_USER" <> "" ->
  os_Getenv env "SSH_PASSWORD" <> "" ->
  os_Getenv env "SSH_HOST" <> "" ->
  String.eqb (getEnv env "SSH_USER" "") ""
  || String.eqb (getEnv env "SSH_PASSWORD" "") ""
  || String.eqb (getEnv env "SSH_HOST" "") "" = false.
Proof.
  intros H1 H2 H3. rewrite !getEnv_unset_default.
  apply String.eqb_neq in H1, H2, H3. now rewrite H1, H2, H3.
Qed.

Lemma credentials_missing (env : gmap string string) :
  os_Getenv env "SSH_USER" = "" \/ os_Getenv env "SSH_PASSWORD" = ""
  \/ os_Getenv env "SSH_HOST" = "" ->
  String.eqb (getEnv env "SSH_USER" "") ""
  || String.eqb (getEnv env "SSH_PASSWORD" "") ""
  || String.eqb (getEnv env "SSH_HOST" "") "" = true.
Proof.
  rewrite !getEnv_unset_default.
  intros [H|[H|H]]; rewrite H; simpl; now rewrite ?orb_true_r.
Qed.

(** X11.  When [SSH_USER], [SSH_PASSWORD] or [SSH_HOST] is not set, or set to
    the empty string, [main] panics with the message that names the three
    variables.  It does so whatever the network would answer, with no
    deferred call, and leaves the index, the client and the list of remote
    operations as they were: nothing was dialled or listed. *)
Theorem main_requires_credentials
    (dotenv : option error) (env : gmap string string) (w : World) :
  os_Getenv env "SSH_USER" = "" \/ os_Getenv env "SSH_PASSWORD" = ""
  \/ os_Getenv env "SSH_HOST" = "" ->
  exists w' : World,
    (forall (fuel : nat) (net : Network),
       startup fuel dotenv env net w =
       Some (Panic "Missing required environment variables: SSH_USER, SSH_PASSWORD, and SSH_HOST must be set" [],
             w'))
    /\ directoriesWithImages w' = directoriesWithImages w
    /\ sftpClient w' = sftpClient w
    /\ remote w' = remote w.
Proof.
  intros Hmiss. destruct (main_warning dotenv w) as (lines & Hwarn & _).
  exists (extend w [] lines []). split.
  - intros fuel net. unfold main. unfold bind at 1. rewrite Hwarn.
    cbv zeta. now rewrite (credentials_missing env Hmiss).
  - simpl. now rewrite !app_nil_r.
Qed.

(** X12.  With the three variables set, [main] dials [tcp] at the host and
    the port joined by a colon, the port being 22 when [SSH_PORT] is not
    set, with the user and the password of the environment.  A failed
    dial is a panic whose message ends with the error, with nothing
    deferred; a failed [sftp.NewClient] is a panic after which the
    connection is closed.  In both cases nothing was listed. *)
Theorem main_connection_failures
    (fuel : nat) (dotenv : option error) (env : gmap string string)
    (net : Network) (w : World) :
  os_Getenv env "SSH_USER" <> "" ->
  os_Getenv env "SSH_PASSWORD" <> "" ->
  os_Getenv env "SSH_HOST" <> "" ->
  let config :=
    {| User := os_Getenv env "SSH_USER";
       Auth := [Password (os_Getenv env "SSH_PASSWORD")];
       HostKey := InsecureIgnoreHostKey |} in
  let address := os_Getenv env "SSH_HOST" +:+ ":" +:+ getEnv env "SSH_PORT" "22" in
  (os_Getenv env "SSH_PORT" = "" -> address = os_Getenv env "SSH_HOST" +:+ ":22")
  /\ (forall err,
        ssh_Dial net "tcp" address config = Err err ->
        exists w' : World,
          startup fuel dotenv env net w =
          Some (Panic ("Failed to connect to NAS: " +:+ Error err) [], w')
          /\ remote w' = remote w /\ sftpClient w' = sftpClient w)
  /\ (forall conn err,
        ssh_Dial net "tcp" address config = Ok conn ->
        sftp_NewClient net conn = Err err ->
        exists w' : World,
          startup fuel dotenv env net w =
          Some (Panic ("Failed to create SFTP client: " +:+ Error err)
                  [conn_Close], w')
          /\ remote w' = remote w /\ sftpClient w' = sftpClient w).
Proof.
  intros Huser Hpw Hhost config address.
  destruct (main_warning dotenv w) as (lines & Hwarn & _).
  split; [|split].
  - intros Hport. unfold address, getEnv. now rewrite Hport.
  - intros err Hdial. exists (extend w [] lines []). split.
    + unfold main. unfold bind at 1. rewrite Hwarn. cbv zeta.
      rewrite (credentials_present env Huser Hpw Hhost).
      rewrite !getEnv_unset_default. fold config. fold address.
      now rewrite Hdial.
    + simpl. now rewrite !app_nil_r.
  - intros conn err Hdial Hnew. exists (extend w [] lines []). split.
    + unfold main. unfold bind at 1. rewrite Hwarn. cbv zeta.
      rewrite (credentials_present env Huser Hpw Hhost).
      rewrite !getEnv_unset_default. fold config. fold address.
      now rewrite Hdial, Hnew.
    + simpl. now rewrite !app_nil_r.
Qed.

Lemma main_index_served (client : Client) (tree : list Item) (fuel : nat) (w : World) :
  serves client "/" tree -> height tree < fuel ->
  main_index unicodeLower fuel client w =
  Some (tt, extend (set_client client w) (imageDirs unicodeLower "/" tree)
              (walkLines unicodeLower "/" "" tree) (walkOps "/" tree)).
Proof.
  intros Hs Hh. unfold main_index. unfold bind at 1. unfold modify at 1.
  unfold bind at 1.
  now rewrite (walk_tree unicodeLower client fuel "/" "" tree _ Hs Hh).
Qed.

Lemma main_index_unlisted (client : Client) (err : error) (fuel : nat) (w : World) :
  client_ReadDir client "/" = Err err ->
  main_index unicodeLower (S fuel) client w =
  Some (tt, extend (set_client client w) []
              ["Error listing folders: " +:+ Error err +:+ newline]
              [OpReadDir "/"]).
Proof.
  intros Hread. unfold main_index. unfold bind at 1. unfold modify at 1.
  unfold bind at 1.
  rewrite (walk_listing_fails unicodeLower fuel client "/" "" err _ Hread).
  unfold modify. now rewrite issue_extend, Printf_extend, extend_extend.
Qed.

(** [main] from the check of the configuration to the creation of the
    client. *)
Ltac main_connects Hwarn Huser Hpw Hhost Hdial Hnew :=
  unfold main; unfold bind at 1; rewrite Hwarn; cbv zeta;
  rewrite (credentials_present _ Huser Hpw Hhost);
  rewrite !getEnv_unset_default, Hdial, Hnew.

(** X13.  With the configuration complete and the connection made, [main]
    installs the client, walks the tree from [/] and only then runs the
    server, on [SERVER_HOST:SERVER_PORT] with [localhost] and [3141] as
    defaults, with the routes GET and OPTIONS of [/getRandomImage].  When
    the server runs the index is complete: the former index followed by
    the image directories of the tree, whose number the line [Found ...]
    reports. *)
Theorem main_serves_after_index
    (fuel : nat) (dotenv : option error) (env : gmap string string)
    (net : Network) (w : World) (conn : Conn) (client : Client)
    (tree : list Item) :
  os_Getenv env "SSH_USER" <> "" ->
  os_Getenv env "SSH_PASSWORD" <> "" ->
  os_Getenv env "SSH_HOST" <> "" ->
  ssh_Dial net "tcp"
    (os_Getenv env "SSH_HOST" +:+ ":" +:+ getEnv env "SSH_PORT" "22")
    {| User := os_Getenv env "SSH_USER";
       Auth := [Password (os_Getenv env "SSH_PASSWORD")];
       HostKey := InsecureIgnoreHostKey |} = Ok conn ->
  sftp_NewClient net conn = Ok client ->
  serves client "/" tree ->
  height tree < fuel ->
  exists w' : World,
    startup fuel dotenv env net w =
    Some (Run (getEnv env "SERVER_HOST" "localhost" +:+ ":"
               +:+ getEnv env "SERVER_PORT" "3141")
            [("GET", "/getRandomImage", handler_getRandomImage);
             ("OPTIONS", "/getRandomImage", handler_handleOptions)], w')
    /\ sftpClient w' = client
    /\ directoriesWithImages w' =
       directoriesWithImages w ++ imageDirs unicodeLower "/" tree
    /\ In ("Found " +:+ itoa (length (directoriesWithImages w'))
           +:+ " directories with images" +:+ newline) (stdout w')
    /\ (os_Getenv env "SERVER_HOST" = "" -> os_Getenv env "SERVER_PORT" = "" ->
        getEnv env "SERVER_HOST" "localhost" +:+ ":"
        +:+ getEnv env "SERVER_PORT" "3141" = "localhost:3141").
Proof.
  intros Huser Hpw Hhost Hdial Hnew Hs Hh.
  destruct (main_warning dotenv w) as (lines & Hwarn & _).
  eexists. split.
  - main_connects Hwarn Huser Hpw Hhost Hdial Hnew.
    unfold bind at 1. rewrite (main_index_served client tree fuel _ Hs Hh).
    unfold bind at 1. unfold gets at 1. unfold bind at 1. unfold modify at 1.
    unfold bind at 1. unfold modify at 1. unfold ret. reflexivity.
  - split; [reflexivity|]. split; [simpl; now rewrite app_nil_r|]. split.
    + simpl. rewrite !in_app_iff. left. right. now left.
    + intros H1 H2. unfold getEnv. now rewrite H1, H2.
Qed.

(** X14.  A failed listing of [/] does not stop [main]: it prints the error
    and runs the server all the same, on the index as it was.  Started on
    an empty index, the server then answers every request 404 with
    [No directories with images found] and without a remote operation. *)
Theorem main_serves_empty_index_after_root_failure
    (fuel : nat) (dotenv : option error) (env : gmap string string)
    (net : Network) (w : World) (conn : Conn) (client : Client) (err : error) :
  os_Getenv env "SSH_USER" <> "" ->
  os_Getenv env "SSH_PASSWORD" <> "" ->
  os_Getenv env "SSH_HOST" <> "" ->
  ssh_Dial net "tcp"
    (os_Getenv env "SSH_HOST" +:+ ":" +:+ getEnv env "SSH_PORT" "22")
    {| User := os_Getenv env "SSH_USER";
       Auth := [Password (os_Getenv env "SSH_PASSWORD")];
       HostKey := InsecureIgnoreHostKey |} = Ok conn ->
  sftp_NewClient net conn = Ok client ->
  client_ReadDir client "/" = Err err ->
  directoriesWithImages w = [] ->
  exists (w' : World) serverAddress routes,
    startup (S fuel) dotenv env net w = Some (Run serverAddress routes, w')
    /\ directoriesWithImages w' = []
    /\ In ("Error listing folders: " +:+ Error err +:+ newline) (stdout w')
    /\ In ("Found 0 directories with images" +:+ newline) (stdout w')
    /\ forall c : Context,
         handler c w' =
         Some (c_JSON 404 (gin_H_error "No directories with images found") c, w').
Proof.
  intros Huser Hpw Hhost Hdial Hnew Hread Hempty.
  destruct (main_warning dotenv w) as (lines & Hwarn & _).
  eexists _, _, _. split.
  - main_connects Hwarn Huser Hpw Hhost Hdial Hnew.
    unfold bind at 1. rewrite (main_index_unlisted client err fuel _ Hread).
    unfold bind at 1. unfold gets at 1. unfold bind at 1. unfold modify at 1.
    unfold bind at 1. unfold modify at 1. unfold ret. reflexivity.
  - split; [simpl; now rewrite Hempty|]. split.
    + simpl. rewrite !in_app_iff. left. left. right. now left.
    + split.
      * simpl. rewrite Hempty. simpl. rewrite !in_app_iff. left. right. now left.
      * intros c. apply handler_empty_index. simpl. now rewrite Hempty.
Qed.

(** X15.  Index, then serve, on a remote tree that does not change: after
    the walk of a served tree from an empty index, a request never finds
    its directory unlisted or without images.  It reaches the open of an
    image file of a directory of the tree and is answered 200, or 500 when
    that open or the read fails. *)
Theorem request_after_index
    (client : Client) (root indent : string) (tree : list Item) (w : World)
    (fuel : nat) (c : Context) :
  serves client root tree ->
  height tree < fuel ->
  directoriesWithImages w = [] ->
  sftpClient w = client ->
  imageDirs unicodeLower root tree <> [] ->
  exists w1 : World,
    walk fuel client root indent w = Some (None, w1)
    /\ exists (c' : Context) (w' : World) p (items : list Item) n t,
         handler c w1 = Some (c', w')
         /\ in_tree root tree p items
         /\ In (IFile n t) items
         /\ isImageFile unicodeLower n = true
         /\ In (OpOpen (filepath.Join [p; n])) (remote w')
         /\ (status c' = 200 \/ status c' = 500).
Proof.
  intros Hs Hh Hempty Hclient Hne.
  eexists. split; [exact (walk_tree unicodeLower client fuel root indent tree w Hs Hh)|].
  set (w1 := extend w _ _ _).
  assert (Hidx : directoriesWithImages w1 = imageDirs unicodeLower root tree).
  { unfold w1. simpl. now rewrite Hempty. }
  assert (Hcl : sftpClient w1 = client) by exact Hclient.
  assert (Hpick : forall d, pickedDir w1 = Some d ->
            exists items : list Item,
              in_tree root tree d items
              /\ client_ReadDir (sftpClient w1) d = Ok (map entry_of items)
              /\ direct_image unicodeLower items).
  { intros d Hd. unfold pickedDir in Hd.
    apply list_elem_of_lookup_2, list_elem_of_In in Hd. rewrite Hidx in Hd.
    destruct (imageDirs_sound unicodeLower _ _ _ Hd) as (items & Ht & Hi).
    exists items. split; [assumption|]. split; [|assumption].
    rewrite Hcl.
    pose proof (serves_in_tree client root tree d items Hs Ht) as Hsd.
    now destruct Hsd. }
  assert (Hentry : forall (items : list Item) entries entry,
            Ok (map entry_of items) = Ok entries ->
            pickedEntry unicodeLower w1 entries = Some entry ->
            exists n t, In (IFile n t) items /\ Name entry = n
                        /\ isImageFile unicodeLower n = true).
  { intros items entries entry Heq Hp. injection Heq as <-.
    destruct (pickedEntry_image unicodeLower _ _ _ Hp) as (Hin & Hd & Hi).
    apply in_map_iff in Hin as (it & <- & Hit).
    destruct it as [n t|n t sub|n t e]; simpl in Hd; try discriminate.
    exists n, t. auto. }
  destruct (handler_answer Format_RFC3339 unicodeLower c w1)
    as (c' & w' & Hrun & Hans).
  exists c', w'. destruct Hans as [Hnil|d err Hd Hread|d entries Hd Hread Hnone
    |d entries entry err Hd Hread Hp Hopen
    |d entries entry file err Hd Hread Hp Hopen Hfile
    |d entries entry file data Hd Hread Hp Hopen Hfile].
  - rewrite Hidx in Hnil. contradiction.
  - destruct (Hpick d Hd) as (items & _ & Hok & _). congruence.
  - destruct (Hpick d Hd) as (items & _ & Hok & Hi).
    rewrite Hok in Hread. injection Hread as <-.
    apply hasImages_direct_image, hasImages_entry in Hi as (e & Hin & He1 & He2).
    assert (Hf : In e (List.filter (isImageEntry unicodeLower) (map entry_of items))).
    { apply filter_In. split; [assumption|]. unfold isImageEntry.
      now rewrite He1, He2. }
    rewrite Hnone in Hf. destruct Hf.
  - destruct (Hpick d Hd) as (items & Ht & Hok & _).
    rewrite Hread in Hok.
    destruct (Hentry items entries entry (eq_sym Hok) Hp) as (n & t & Hin & <- & Hi).
    exists d, items, (Name entry), t. repeat split; try assumption; [|now right].
    rewrite remote_opened. apply in_app_iff. right. right. now left.
  - destruct (Hpick d Hd) as (items & Ht & Hok & _).
    rewrite Hread in Hok.
    destruct (Hentry items entries entry (eq_sym Hok) Hp) as (n & t & Hin & <- & Hi).
    exists d, items, (Name entry), t. repeat split; try assumption; [|now right].
    rewrite remote_closed. apply in_app_iff. right. right. now left.
  - destruct (Hpick d Hd) as (items & Ht & Hok & _).
    rewrite Hread in Hok.
    destruct (Hentry items entries entry (eq_sym Hok) Hp) as (n & t & Hin & <- & Hi).
    exists d, items, (Name entry), t. repeat split; try assumption; [|now left].
    rewrite remote_closed. apply in_app_iff. right. right. now left.
Qed.

End StartupFacts.

(** ** Names and extensions *)

Lemma is_dot_val (c : ascii) : byte_val c <> 46%N -> is_dot c = false.
Proof.
  intros H. apply Ascii.eqb_neq. intros ->. apply H. reflexivity.
Qed.

Lemma IsPathSeparator_val (c : ascii) : byte_val c <> 47%N -> IsPathSeparator c = false.
Proof.
  intros H. apply Ascii.eqb_neq. intros ->. apply H. reflexivity.
Qed.

Lemma ext_scan_plain (r rest seen : list ascii) :
  List.Forall plain_byte r ->
  filepath.ext_scan (r ++ rest) seen = filepath.ext_scan rest (rev r ++ seen).
Proof.
  intros H. revert seen. induction H as [|c r [Hd Hs] _ IH]; intros seen.
  - reflexivity.
  - simpl. rewrite Hs, Hd, IH. now rewrite <- app_assoc.
Qed.

Lemma ext_scan_last_dot (pre suf : list ascii) :
  List.Forall plain_byte suf ->
  filepath.ext_scan (rev (pre ++ dot :: suf)) [] = dot :: suf.
Proof.
  intros H. rewrite rev_app_distr. simpl. rewrite <- app_assoc.
  rewrite ext_scan_plain by now apply List.Forall_rev.
  simpl. now rewrite rev_involutive, app_nil_r.
Qed.

Lemma ext_scan_no_dot (r rest seen : list ascii) :
  List.Forall (fun c => is_dot c = false) r ->
  filepath.ext_scan (r ++ Separator :: rest) seen = [].
Proof.
  intros H. revert seen. induction H as [|c r Hd _ IH]; intros seen.
  - reflexivity.
  - simpl. rewrite Hd. destruct (IsPathSeparator c); [reflexivity|apply IH].
Qed.

Lemma same_letter_plain (c d : ascii) :
  same_letter c d -> plain_byte d -> plain_byte c.
Proof.
  intros [->|[Hl Hv]] Hd; [assumption|].
  apply isLower_range in Hl.
  split; [apply is_dot_val|apply IsPathSeparator_val]; lia.
Qed.

Lemma same_letter_dot (c : ascii) : same_letter c dot -> c = dot.
Proof. intros [->|[Hl _]]; [reflexivity|discriminate]. Qed.

Lemma imageExts_shape (e : string) :
  In e imageExts ->
  exists suf, bytes e = dot :: suf /\ List.Forall plain_byte suf.
Proof.
  unfold imageExts. simpl. intros H.
  repeat destruct H as [<-|H]; try destruct H;
    (eexists; split; [reflexivity|]; repeat constructor).
Qed.

Lemma lowerByte_keeps_marks (c : ascii) :
  IsPathSeparator (strings.lowerByte c) = IsPathSeparator c
  /\ is_dot (strings.lowerByte c) = is_dot c.
Proof.
  unfold strings.lowerByte. destruct (strings.isUpper c) eqn:E; [|auto].
  apply isUpper_range in E.
  rewrite (IsPathSeparator_val c), (is_dot_val c) by lia.
  split; [apply IsPathSeparator_val|apply is_dot_val];
    rewrite byte_val_of_N; lia.
Qed.

Lemma lowerByte_idempotent (c : ascii) :
  strings.lowerByte (strings.lowerByte c) = strings.lowerByte c.
Proof.
  unfold strings.lowerByte at 2 3. destruct (strings.isUpper c) eqn:E; [|].
  - apply isUpper_range in E. unfold strings.lowerByte.
    replace (strings.isUpper (ascii_of_N (byte_val c + 32))) with false;
      [reflexivity|].
    symmetry. apply not_true_iff_false. rewrite isUpper_range.
    rewrite byte_val_of_N; lia.
  - unfold strings.lowerByte. now rewrite E.
Qed.

Lemma lowerByte_isASCII (c : ascii) :
  isASCII c = true -> isASCII (strings.lowerByte c) = true.
Proof.
  unfold strings.lowerByte. destruct (strings.isUpper c) eqn:E; [|auto].
  intros _. apply isUpper_range in E. unfold isASCII, strings.RuneSelf.
  apply N.ltb_lt. rewrite byte_val_of_N; lia.
Qed.

Lemma ext_scan_lowerByte (r seen : list ascii) :
  filepath.ext_scan (map strings.lowerByte r) (map strings.lowerByte seen) =
  map strings.lowerByte (filepath.ext_scan r seen).
Proof.
  revert seen. induction r as [|c r IH]; intros seen; [reflexivity|].
  simpl. destruct (lowerByte_keeps_marks c) as [-> ->].
  destruct (IsPathSeparator c); [reflexivity|].
  destruct (is_dot c); [reflexivity|]. apply (IH (c :: seen)).
Qed.

Lemma ext_scan_isASCII (r seen : list ascii) :
  forallb isASCII r = true -> forallb isASCII seen = true ->
  forallb isASCII (filepath.ext_scan r seen) = true.
Proof.
  revert seen. induction r as [|c r IH]; intros seen Hr Hs; [reflexivity|].
  simpl in *. apply andb_true_iff in Hr as [Hc Hr].
  destruct (IsPathSeparator c); [reflexivity|].
  destruct (is_dot c); simpl; [now rewrite Hc|].
  apply IH; [assumption|]. simpl. now rewrite Hc.
Qed.

Section NameFacts.
Variable unicodeLower : string -> string.

Local Abbreviation ToLower := (strings.ToLower unicodeLower).

(** X16.  Only what follows the last dot counts: a name that ends with a
    dot and a suffix without dot or separator has that dot and suffix as
    its extension, whatever precedes, other dots and directories
    included, and is classified as the dot and suffix alone are. *)
Theorem classifier_reads_last_dot (base suffix : string) :
  List.Forall plain_byte (bytes suffix) ->
  filepath.Ext (base +:+ "." +:+ suffix) = "." +:+ suffix
  /\ isImageFile unicodeLower (base +:+ "." +:+ suffix)
     = isImageFile unicodeLower ("." +:+ suffix)
  /\ getContentType unicodeLower (base +:+ "." +:+ suffix)
     = getContentType unicodeLower ("." +:+ suffix).
Proof.
  intros H.
  assert (Hext : forall pre : string,
            filepath.Ext (pre +:+ "." +:+ suffix) = "." +:+ suffix).
  { intros pre. unfold filepath.Ext. rewrite !bytes_append.
    change (bytes ".") with [dot]. simpl app at 2.
    rewrite ext_scan_last_dot by assumption.
    apply bytes_inj. rewrite bytes_of_bytes, bytes_append. reflexivity. }
  split; [apply Hext|].
  unfold isImageFile, getContentType.
  assert (H0 : filepath.Ext ("." +:+ suffix) = "." +:+ suffix) by exact (Hext "").
  now rewrite (Hext base), H0.
Qed.

(** X17.  Any name that ends with a recognized extension, in any case of
    its letters, is an image, whatever the base name, and gets the MIME
    type of that extension. *)
Theorem isImageFile_any_base (base ext e : string) :
  In e imageExts ->
  equal_fold ext e ->
  isImageFile unicodeLower (base +:+ ext) = true
  /\ forall m, In (e, m) mimeTable ->
       getContentType unicodeLower (base +:+ ext) = m.
Proof.
  intros He Hf.
  destruct (imageExts_shape e He) as (suf & Hbytes & Hplain).
  assert (Hshape : exists suf', bytes ext = dot :: suf' /\ List.Forall plain_byte suf').
  { unfold equal_fold in Hf. rewrite Hbytes in Hf.
    inversion Hf as [|c d bs es Hcd Hrest Hb He']; subst.
    apply same_letter_dot in Hcd. subst c. exists bs. split; [reflexivity|].
    clear -Hrest Hplain. induction Hrest as [|c d bs es Hcd _ IH]; [constructor|].
    inversion Hplain; subst. constructor; [now apply (same_letter_plain c d)|auto]. }
  destruct Hshape as (suf' & Hext & Hplain').
  assert (HExt : filepath.Ext (base +:+ ext) = ext).
  { unfold filepath.Ext. rewrite bytes_append, Hext.
    rewrite ext_scan_last_dot by assumption.
    rewrite <- Hext. apply of_bytes_bytes. }
  assert (Hlow : ToLower (filepath.Ext (base +:+ ext)) = e).
  { rewrite HExt. now apply ToLower_of_fold. }
  split.
  - apply isImageFile_In. now rewrite Hlow.
  - intros m Hm. unfold getContentType. rewrite Hlow.
    unfold mimeTable in Hm. simpl in Hm.
    repeat destruct Hm as [Hm|Hm]; try (injection Hm as <- <-; reflexivity).
    destruct Hm.
Qed.

(** X18.  A dot in a directory part makes no extension: a path whose last
    element has no dot has the empty extension, is no image, and gets the
    fallback type [image/jpeg]. *)
Theorem no_dot_in_last_element (dir file : string) :
  List.Forall (fun c => is_dot c = false) (bytes file) ->
  filepath.Ext (dir +:+ "/" +:+ file) = ""
  /\ isImageFile unicodeLower (dir +:+ "/" +:+ file) = false
  /\ getContentType unicodeLower (dir +:+ "/" +:+ file) = "image/jpeg".
Proof.
  intros H.
  assert (Hext : filepath.Ext (dir +:+ "/" +:+ file) = "").
  { unfold filepath.Ext. rewrite !bytes_append.
    change (bytes "/") with [Separator]. rewrite !rev_app_distr. simpl.
    rewrite <- app_assoc. simpl.
    now rewrite ext_scan_no_dot by now apply List.Forall_rev. }
  split; [exact Hext|].
  unfold isImageFile, getContentType. rewrite Hext. split; reflexivity.
Qed.

(** X19.  The classifier does not see the case of ASCII letters anywhere
    in a name: putting a name of ASCII bytes in lower case changes neither
    whether it is an image nor its content type. *)
Theorem classifier_ignores_ascii_case (name : string) :
  forallb isASCII (bytes name) = true ->
  isImageFile unicodeLower (ToLower name) = isImageFile unicodeLower name
  /\ getContentType unicodeLower (ToLower name) = getContentType unicodeLower name.
Proof.
  intros Hasc.
  assert (Hext : forallb isASCII (filepath.ext_scan (rev (bytes name)) []) = true).
  { apply ext_scan_isASCII; [|reflexivity].
    rewrite forallb_forall in *. intros c Hc. apply Hasc.
    now apply in_rev. }
  assert (Hmap : forall l, forallb isASCII l = true ->
                 forallb isASCII (map strings.lowerByte l) = true).
  { intros l Hl. rewrite forallb_forall in *. intros c Hc.
    apply in_map_iff in Hc as (x & <- & Hx). apply lowerByte_isASCII. auto. }
  assert (Hlow : ToLower (filepath.Ext (ToLower name))
                 = ToLower (filepath.Ext name)).
  { rewrite (ToLower_ascii unicodeLower name Hasc).
    unfold filepath.Ext at 1. rewrite bytes_of_bytes, <- map_rev.
    change (@nil ascii) with (map strings.lowerByte []) at 1.
    rewrite ext_scan_lowerByte.
    rewrite ToLower_ascii by (rewrite bytes_of_bytes; now apply Hmap).
    rewrite bytes_of_bytes, map_map.
    unfold filepath.Ext. rewrite ToLower_ascii by now rewrite bytes_of_bytes.
    rewrite bytes_of_bytes. f_equal. apply map_ext. intros c.
    apply lowerByte_idempotent. }
  unfold isImageFile, getContentType. now rewrite Hlow.
Qed.

End NameFacts.

(** ** Paths of the directories below the root *)

Lemma clean_loop_copy_stop (rooted : bool) (t rest out : list ascii) (dd : nat) :
  List.Forall not_sep t ->
  filepath.clean_loop rooted (t ++ Separator :: rest) true out dd =
  filepath.clean_loop rooted rest false (rev t ++ out) dd.
Proof.
  intros H. revert out. induction H as [|c t Hc _ IH]; intros out.
  - reflexivity.
  - cbn [app filepath.clean_loop]. rewrite Hc, IH. simpl.
    now rewrite <- app_assoc.
Qed.

(** One real element followed by a separator, or by nothing, is copied. *)
Lemma clean_loop_element (rooted : bool) (e rest out : list ascii) (dd : nat) :
  real_element e ->
  let out1 :=
    if (rooted && negb (length out =? 1)) || (negb rooted && negb (length out =? 0))
    then Separator :: out else out in
  filepath.clean_loop rooted (e ++ Separator :: rest) false out dd =
  filepath.clean_loop rooted rest false (rev e ++ out1) dd
  /\ filepath.clean_loop rooted e false out dd = rev e ++ out1.
Proof.
  intros (Hne & Hsep & Hdot & Hdotdot) out1.
  destruct e as [|c t]; [congruence|].
  inversion Hsep as [|? ? Hc Ht]; subst.
  assert (H1 : forall rest', is_dot c && filepath.at_element_end (t ++ rest') = false
                             \/ (t = [] /\ is_dot c = false)).
  { intros rest'. destruct (is_dot c) eqn:Edot; [|left; reflexivity].
    left. simpl. destruct t as [|c2 t2].
    - apply Ascii.eqb_eq in Edot. congruence.
    - inversion Ht; subst. assumption. }
  assert (H2 : forall rest',
            (rest' = [] \/ exists r, rest' = Separator :: r) ->
            match t ++ rest' with
            | c2 :: t2 => is_dot c && is_dot c2 && filepath.at_element_end t2
            | [] => false
            end = false).
  { intros rest' Hrest. destruct t as [|c2 t2].
    - simpl. destruct Hrest as [->|[r ->]]; [reflexivity|].
      now rewrite andb_false_r.
    - simpl. inversion Ht as [|? ? Hc2 Ht2]; subst.
      destruct (is_dot c) eqn:Edot; [|reflexivity].
      destruct (is_dot c2) eqn:Edot2; [|reflexivity]. simpl.
      destruct t2 as [|c3 t3].
      + apply Ascii.eqb_eq in Edot, Edot2. congruence.
      + inversion Ht2; subst. assumption. }
  assert (H1' : forall rest', is_dot c && filepath.at_element_end (t ++ rest') = false).
  { intros rest'. destruct (H1 rest') as [H|[_ H]]; [assumption|now rewrite H]. }
  split.
  - change ((c :: t) ++ Separator :: rest) with (c :: (t ++ Separator :: rest)).
    rewrite clean_loop_default; [|exact Hc|apply H1'|apply H2; eauto].
    rewrite clean_loop_copy_stop by assumption.
    simpl. now rewrite <- app_assoc.
  - rewrite <- (app_nil_r t) at 1.
    rewrite clean_loop_default; [|exact Hc|apply H1'|apply H2; eauto].
    rewrite app_nil_r, clean_loop_copy by assumption.
    simpl. now rewrite <- app_assoc.
Qed.

Lemma clean_loop_elements (names : list (list ascii)) :
  List.Forall real_element names -> names <> [] ->
  forall out, out <> [] ->
    filepath.clean_loop true (join_elements names) false out 1 =
    rev (join_elements names)
    ++ (if length out =? 1 then out else Separator :: out).
Proof.
  induction 1 as [|e names He Hnames IH]; intros Hne out Hout; [congruence|].
  destruct names as [|e2 names].
  - cbn [join_elements].
    destruct (clean_loop_element true e [] out 1 He) as [_ ->].
    simpl. now destruct (length out =? 1).
  - change (join_elements (e :: e2 :: names))
      with (e ++ Separator :: join_elements (e2 :: names)).
    destruct (clean_loop_element true e (join_elements (e2 :: names)) out 1 He)
      as [-> _].
    rewrite IH; [|discriminate|].
    + assert (Hlen : (length (rev e ++
                (if true && negb (length out =? 1) || negb true && negb (length out =? 0)
                 then Separator :: out else out)) =? 1) = false).
      { apply Nat.eqb_neq. rewrite length_app, length_rev.
        destruct He as (He & _). destruct e; [congruence|].
        destruct out; [congruence|].
        destruct (true && negb (length (a0 :: out) =? 1)
                  || negb true && negb (length (a0 :: out) =? 0)); simpl; lia. }
      rewrite Hlen. rewrite rev_app_distr. simpl. rewrite <- !app_assoc.
      f_equal. simpl. f_equal. simpl. 
      now destruct (length out =? 1).
    + destruct He as (He & _). intros Habs.
      apply app_eq_nil in Habs as [Habs _].
      apply (f_equal (@rev ascii)) in Habs. rewrite rev_involutive in Habs.
      simpl in Habs. congruence.
Qed.

Lemma join_elements_snoc (names : list (list ascii)) (e : list ascii) :
  names <> [] ->
  join_elements (names ++ [e]) = join_elements names ++ Separator :: e.
Proof.
  induction names as [|x names IH]; intros Hne; [congruence|].
  destruct names as [|y names]; [reflexivity|].
  change (join_elements ((x :: y :: names) ++ [e]))
    with (x ++ Separator :: join_elements ((y :: names) ++ [e])).
  rewrite IH by discriminate.
  change (join_elements (x :: y :: names))
    with (x ++ Separator :: join_elements (y :: names)).
  now rewrite <- app_assoc.
Qed.

Lemma last_element_found (r rest seen : list ascii) :
  List.Forall not_sep r ->
  filepath.last_element (r ++ Separator :: rest) seen = rev r ++ seen.
Proof.
  intros H. revert seen. induction H as [|c r Hc _ IH]; intros seen.
  - reflexivity.
  - simpl. rewrite Hc, IH. now rewrite <- app_assoc.
Qed.

(** X20.  Below the root the paths are the names joined by slashes: for a
    directory [/n1/.../nk] ([/] itself for no name) and an entry whose name
    is a real path element, [filepath.Join] gives [/n1/.../nk/name] - the
    path the walk recurses into and the handler opens - and
    [filepath.Base] of that path, which the walk prints, is the name. *)
Theorem Join_below_root (names : list string) (name : string) :
  List.Forall real_element (map bytes names) ->
  real_element (bytes name) ->
  filepath.Join [rooted_path names; name] = rooted_path (names ++ [name])
  /\ filepath.Base (rooted_path (names ++ [name])) = name.
Proof.
  intros Hnames Hname.
  assert (Hall : List.Forall real_element (map bytes (names ++ [name]))).
  { rewrite map_app. apply List.Forall_app. split; [assumption|]. now constructor. }
  split.
  - assert (Hrp : bytes (rooted_path names)
                  = Separator :: join_elements (map bytes names))
      by apply bytes_of_bytes.
    cbn [filepath.Join].
    destruct (String.eqb_spec (rooted_path names) "") as [Habs|_].
    { apply (f_equal bytes) in Habs. rewrite Hrp in Habs. discriminate. }
    cbn [filepath.join_sep]. unfold filepath.Clean.
    rewrite !bytes_append, Hrp.
    change (bytes "/") with [Separator].
    cbn [app]. cbv beta iota zeta.
    change (IsPathSeparator Separator) with true. cbv iota.
    assert (Hloop : filepath.clean_loop true
              (join_elements (map bytes names) ++ Separator :: bytes name)
              false [Separator] 1
            = rev (join_elements (map bytes (names ++ [name]))) ++ [Separator]).
    { destruct names as [|n0 names'].
      - simpl. change (IsPathSeparator Separator) with true. cbv iota.
        destruct (clean_loop_element true (bytes name) [] [Separator] 1 Hname)
          as [_ ->]. reflexivity.
      - replace (join_elements (map bytes (n0 :: names')) ++ Separator :: bytes name)
          with (join_elements (map bytes ((n0 :: names') ++ [name])))
          by (rewrite map_app; cbn [map];
              now rewrite join_elements_snoc by discriminate).
        rewrite (clean_loop_elements _ Hall); [reflexivity|discriminate|discriminate]. }
    rewrite Hloop. unfold rooted_path.
    destruct (rev (join_elements (map bytes (names ++ [name]))) ++ [Separator])
      as [|x l] eqn:E.
    { apply app_eq_nil in E as [_ E]. discriminate. }
    rewrite <- E. rewrite rev_app_distr, rev_involutive. reflexivity.
  - unfold filepath.Base, rooted_path. rewrite bytes_of_bytes.
    cbv iota. rewrite map_app. cbn [map].
    assert (Hrev : exists pre,
              rev (Separator :: join_elements (map bytes names ++ [bytes name]))
              = rev (bytes name) ++ Separator :: pre).
    { destruct names as [|n0 names'].
      - exists []. simpl. reflexivity.
      - rewrite join_elements_snoc by discriminate.
        eexists. cbn [rev]. rewrite rev_app_distr. cbn [rev].
        rewrite <- !app_assoc. reflexivity. }
    destruct Hrev as (pre & ->).
    destruct Hname as (Hne & Hsep & _).
    assert (Hstrip : filepath.strip_trailing (rev (bytes name) ++ Separator :: pre)
                     = rev (bytes name) ++ Separator :: pre).
    { destruct (rev (bytes name)) as [|c r] eqn:E.
      - apply (f_equal (@rev ascii)) in E. rewrite rev_involutive in E.
        simpl in E. congruence.
      - assert (Hc : not_sep c).
        { apply List.Forall_rev in Hsep. rewrite E in Hsep. now inversion Hsep. }
        simpl. now rewrite Hc. }
    rewrite Hstrip.
    rewrite last_element_found by now apply List.Forall_rev.
    rewrite rev_involutive, app_nil_r.
    destruct (bytes name) as [|c t] eqn:E; [congruence|].
    rewrite <- E. apply of_bytes_bytes.
Qed.

(** ** The further properties on the example tree *)

(** A request on a state of the example, run to its answer. *)
Ltac run_request k c' w' Hrun :=
  destruct (getRandomImage exFormat exLower newContext (exServing k))
    as [[c' w']|] eqn:Hrun; [|vm_compute in Hrun; discriminate].

Lemma getRandomImage_frame_witness :
  exists c' w',
    getRandomImage exFormat exLower newContext (exServing 4) = Some (c', w')
    /\ directoriesWithImages w' = ["/a"; "/b"; "/c"; "/d"; "/e"]
    /\ rand_drawn w' <= 2.
Proof.
  run_request 4 c' w' Hrun. exists c', w'. split; [reflexivity|].
  destruct (getRandomImage_frame exFormat exLower newContext c'
              (exServing 4) w' Hrun) as (Hidx & _ & _ & _ & Hdrawn & _).
  split; [exact Hidx|exact (proj2 Hdrawn)].
Defined.

Lemma getRandomImage_closes_what_it_opens_witness :
  exists c' w',
    getRandomImage exFormat exLower newContext (exServing 4) = Some (c', w')
    /\ exists ops,
         remote w' = ops
         /\ (In (OpOpen "/e/.gif") ops -> In (OpClose "/e/.gif") ops).
Proof.
  run_request 4 c' w' Hrun. exists c', w'. split; [reflexivity|].
  destruct (getRandomImage_closes_what_it_opens exFormat exLower newContext c'
              (exServing 4) w' Hrun) as (ops & Hops & Hclose & _).
  exists ops. split; [exact Hops|].
  intros Hin.
  exact (Hclose "/e/.gif" {| file_path := "/e/.gif"; file_read := Err exLost |}
           Hin eq_refl).
Defined.

Lemma getRandomImage_error_without_cors_witness :
  exists c' w',
    getRandomImage exFormat exLower newContext (exServing 1) = Some (c', w')
    /\ status c' <> 200
    /\ header c' !! "Access-Control-Allow-Origin" = None.
Proof.
  run_request 1 c' w' Hrun. exists c', w'. split; [reflexivity|].
  assert (Hst : status c' <> 200).
  { assert (Hval := Hrun). vm_compute in Hval. injection Hval as <- _.
    discriminate. }
  split; [exact Hst|].
  exact (proj1 (proj2 (getRandomImage_error_without_cors exFormat exLower
                         c' (exServing 1) w' Hrun Hst))).
Defined.

Lemma listFoldersRecursively_returns_own_error_witness :
  exists w',
    listFoldersRecursively exLower 2 (exClient exTreeBad) "/" ""
      (exStart (exClient exTreeBad)) = Some (None, w')
    /\ exists entries, client_ReadDir (exClient exTreeBad) "/" = Ok entries.
Proof.
  destruct (listFoldersRecursively exLower 2 (exClient exTreeBad) "/" ""
              (exStart (exClient exTreeBad))) as [[r w']|] eqn:Hrun;
    [|vm_compute in Hrun; discriminate].
  assert (Hr : r = None).
  { assert (Hval := Hrun). vm_compute in Hval. now injection Hval as <- _. }
  subst r. exists w'. split; [reflexivity|].
  exact (proj1 (proj2 (listFoldersRecursively_returns_own_error exLower 2
                         (exClient exTreeBad) "/" "" _ w' None Hrun)) eq_refl).
Defined.

Lemma listFoldersRecursively_appends_only_witness :
  exists r w',
    listFoldersRecursively exLower 2 (exClient exTreeBad) "/" ""
      (exServing 0) = Some (r, w')
    /\ exists dirs,
         directoriesWithImages w' = ["/a"; "/b"; "/c"; "/d"; "/e"] ++ dirs.
Proof.
  destruct (listFoldersRecursively exLower 2 (exClient exTreeBad) "/" ""
              (exServing 0)) as [[r w']|] eqn:Hrun;
    [|vm_compute in Hrun; discriminate].
  exists r, w'. split; [reflexivity|].
  destruct (listFoldersRecursively_appends_only exLower 2 (exClient exTreeBad)
              "/" "" (exServing 0) w' r Hrun) as (dirs & _ & _ & Hidx & _).
  exists dirs. exact Hidx.
Defined.

Lemma listFoldersRecursively_no_cycle_guard_witness :
  (forall p, exists entries,
     client_ReadDir exClientLoop p = Ok entries
     /\ exists e, In e entries /\ IsDir e = true)
  /\ listFoldersRecursively exLower 1000 exClientLoop "/" ""
       (exStart exClientLoop) = None.
Proof.
  assert (H : forall p, exists entries,
            client_ReadDir exClientLoop p = Ok entries
            /\ exists e, In e entries /\ IsDir e = true).
  { intros p. eexists. split; [reflexivity|].
    eexists. split; [right; left; reflexivity|reflexivity]. }
  split; [exact H|].
  exact (listFoldersRecursively_no_cycle_guard exLower exClientLoop H 1000 "/" ""
           (exStart exClientLoop)).
Defined.

Lemma listFoldersRecursively_one_listing_each_witness :
  serves (exClient exTreeBad) "/" exTreeBad
  /\ height exTreeBad < 2
  /\ exists w' ops,
       listFoldersRecursively exLower 2 (exClient exTreeBad) "/" ""
         (exStart (exClient exTreeBad)) = Some (None, w')
       /\ remote w' = ops /\ length ops = 6.
Proof.
  assert (Hh : height exTreeBad < 2) by (vm_compute; lia).
  split; [exact exTreeBad_served|]. split; [exact Hh|].
  destruct (listFoldersRecursively_one_listing_each exLower (exClient exTreeBad)
              "/" "" exTreeBad (exStart (exClient exTreeBad)) 2
              exTreeBad_served Hh) as (w' & ops & Hrun & Hops & Hlen & _).
  exists w', ops. split; [exact Hrun|]. split; [exact Hops|exact Hlen].
Defined.

Lemma getEnv_value_or_default_witness :
  exEnv !! "SSH_HOST" = Some "nas.local"
  /\ exEnv !! "SERVER_PORT" = Some ""
  /\ exEnv !! "SSH_PORT" = None
  /\ getEnv exEnv "SSH_HOST" "" = "nas.local"
  /\ getEnv exEnv "SERVER_PORT" "3141" = "3141"
  /\ getEnv exEnv "SSH_PORT" "22" = "22".
Proof.
  assert (H1 : exEnv !! "SSH_HOST" = Some "nas.local") by reflexivity.
  assert (H2 : exEnv !! "SERVER_PORT" = Some "") by reflexivity.
  assert (H3 : exEnv !! "SSH_PORT" = None) by reflexivity.
  split; [exact H1|]. split; [exact H2|]. split; [exact H3|].
  split; [|split].
  - apply (proj1 (getEnv_value_or_default exEnv "SSH_HOST" "") "nas.local" H1).
    discriminate.
  - exact (proj1 (proj2 (getEnv_value_or_default exEnv "SERVER_PORT" "3141"))
             (or_intror H2)).
  - exact (proj1 (proj2 (getEnv_value_or_default exEnv "SSH_PORT" "22"))
             (or_introl H3)).
Defined.

Lemma main_requires_credentials_witness :
  os_Getenv (delete "SSH_PASSWORD" exEnv) "SSH_PASSWORD" = ""
  /\ exists w',
       main exLower 2 None (delete "SSH_PASSWORD" exEnv) (exNet (exClient exTree))
         (exStart exClientDown)
       = Some (Panic "Missing required environment variables: SSH_USER, SSH_PASSWORD, and SSH_HOST must be set" [],
               w')
       /\ remote w' = [].
Proof.
  assert (H : os_Getenv (delete "SSH_PASSWORD" exEnv) "SSH_PASSWORD" = "")
    by reflexivity.
  split; [exact H|].
  destruct (main_requires_credentials (Conn := unit) exLower None
              (delete "SSH_PASSWORD" exEnv) (exStart exClientDown)
              (or_intror (or_introl H))) as (w' & Hrun & _ & _ & Hops).
  exists w'. split; [apply Hrun|exact Hops].
Defined.

Lemma main_connection_failures_witness :
  os_Getenv exEnv "SSH_USER" <> "" /\ os_Getenv exEnv "SSH_PASSWORD" <> ""
  /\ os_Getenv exEnv "SSH_HOST" <> ""
  /\ ssh_Dial exNetDown "tcp" "nas.local:22"
       {| User := "nas"; Auth := [Password "secret"];
          HostKey := InsecureIgnoreHostKey |} = Err exLost
  /\ exists w',
       main exLower 2 None exEnv exNetDown (exStart exClientDown)
       = Some (Panic "Failed to connect to NAS: connection lost" [], w').
Proof.
  assert (H1 : os_Getenv exEnv "SSH_USER" <> "") by discriminate.
  assert (H2 : os_Getenv exEnv "SSH_PASSWORD" <> "") by discriminate.
  assert (H3 : os_Getenv exEnv "SSH_HOST" <> "") by discriminate.
  split; [exact H1|]. split; [exact H2|]. split; [exact H3|].
  split; [reflexivity|].
  destruct (proj1 (proj2 (main_connection_failures exLower 2 None exEnv exNetDown
                            (exStart exClientDown) H1 H2 H3)) exLost eq_refl)
    as (w' & Hrun & _).
  exists w'. exact Hrun.
Defined.

Lemma main_serves_after_index_witness :
  serves (exClient exTree) "/" exTree
  /\ height exTree < 2
  /\ exists w',
       main exLower 2 None exEnv (exNet (exClient exTree)) (exStart exClientDown)
       = Some (Run "localhost:3141"
                 [("GET", "/getRandomImage", handler_getRandomImage);
                  ("OPTIONS", "/getRandomImage", handler_handleOptions)], w')
       /\ directoriesWithImages w' = ["/a"; "/b"].
Proof.
  assert (Hh : height exTree < 2) by (vm_compute; lia).
  assert (H1 : os_Getenv exEnv "SSH_USER" <> "") by discriminate.
  assert (H2 : os_Getenv exEnv "SSH_PASSWORD" <> "") by discriminate.
  assert (H3 : os_Getenv exEnv "SSH_HOST" <> "") by discriminate.
  split; [exact exTree_served|]. split; [exact Hh|].
  destruct (main_serves_after_index exLower 2 None exEnv (exNet (exClient exTree))
              (exStart exClientDown) tt (exClient exTree) exTree
              H1 H2 H3 eq_refl eq_refl exTree_served Hh)
    as (w' & Hrun & _ & Hidx & _).
  exists w'. split; [exact Hrun|]. rewrite Hidx. reflexivity.
Defined.

Lemma main_serves_empty_index_after_root_failure_witness :
  client_ReadDir exClientDown "/" = Err exLost
  /\ exists w' serverAddress routes,
       main exLower 1 None exEnv (exNet exClientDown) (exStart exClientDown)
       = Some (Run serverAddress routes, w')
       /\ getRandomImage exFormat exLower newContext w'
          = Some (c_JSON 404 (gin_H_error "No directories with images found")
                    newContext, w').
Proof.
  assert (H1 : os_Getenv exEnv "SSH_USER" <> "") by discriminate.
  assert (H2 : os_Getenv exEnv "SSH_PASSWORD" <> "") by discriminate.
  assert (H3 : os_Getenv exEnv "SSH_HOST" <> "") by discriminate.
  split; [reflexivity|].
  destruct (main_serves_empty_index_after_root_failure exFormat exLower 0 None
              exEnv (exNet exClientDown) (exStart exClientDown) tt exClientDown
              exLost H1 H2 H3 eq_refl eq_refl eq_refl eq_refl)
    as (w' & addr & routes & Hrun & _ & _ & _ & H404).
  exists w', addr, routes. split; [exact Hrun|apply H404].
Defined.

Lemma request_after_index_witness :
  serves (exClient exTree) "/" exTree
  /\ height exTree < 2
  /\ imageDirs exLower "/" exTree <> []
  /\ exists w1 c' w',
       listFoldersRecursively exLower 2 (exClient exTree) "/" ""
         (exStart (exClient exTree)) = Some (None, w1)
       /\ getRandomImage exFormat exLower newContext w1 = Some (c', w')
       /\ (status c' = 200 \/ status c' = 500).
Proof.
  assert (Hh : height exTree < 2) by (vm_compute; lia).
  assert (Hne : imageDirs exLower "/" exTree <> []) by discriminate.
  split; [exact exTree_served|]. split; [exact Hh|]. split; [exact Hne|].
  destruct (request_after_index exFormat exLower (exClient exTree) "/" "" exTree
              (exStart (exClient exTree)) 2 newContext
              exTree_served Hh eq_refl eq_refl Hne)
    as (w1 & Hwalk & c' & w' & p & items & n & t & Hrun & _ & _ & _ & _ & Hst).
  exists w1, c', w'. auto.
Defined.

Lemma classifier_reads_last_dot_witness :
  List.Forall plain_byte (bytes "txt")
  /\ filepath.Ext "/photos.2024/photo.jpg.txt" = ".txt"
  /\ isImageFile exLower "/photos.2024/photo.jpg.txt" = false.
Proof.
  assert (H : List.Forall plain_byte (bytes "txt")) by (repeat constructor).
  split; [exact H|].
  destruct (classifier_reads_last_dot exLower "/photos.2024/photo.jpg" "txt" H)
    as (Hext & Himg & _).
  split; [exact Hext|exact Himg].
Defined.

Lemma isImageFile_any_base_witness :
  In ".webp" imageExts
  /\ equal_fold ".WebP" ".webp"
  /\ isImageFile exLower "/a/b.c/holiday 1.WebP" = true
  /\ getContentType exLower "/a/b.c/holiday 1.WebP" = "image/webp".
Proof.
  assert (He : In ".webp" imageExts) by (do 5 right; now left).
  assert (Hf : equal_fold ".WebP" ".webp").
  { constructor; [now left|]. constructor; [right; split; reflexivity|].
    constructor; [now left|]. constructor; [now left|].
    constructor; [right; split; reflexivity|]. constructor. }
  split; [exact He|]. split; [exact Hf|].
  destruct (isImageFile_any_base exLower "/a/b.c/holiday 1" ".WebP" ".webp" He Hf)
    as (Himg & Hct).
  split; [exact Himg|]. apply Hct. do 5 right. now left.
Defined.

Lemma no_dot_in_last_element_witness :
  List.Forall (fun c => is_dot c = false) (bytes "cover")
  /\ filepath.Ext "/albums/2024.jpg/cover" = ""
  /\ isImageFile exLower "/albums/2024.jpg/cover" = false.
Proof.
  assert (H : List.Forall (fun c => is_dot c = false) (bytes "cover"))
    by (repeat constructor).
  split; [exact H|].
  destruct (no_dot_in_last_element exLower "/albums/2024.jpg" "cover" H)
    as (Hext & Himg & _).
  split; [exact Hext|exact Himg].
Defined.

Lemma classifier_ignores_ascii_case_witness :
  forallb isASCII (bytes "Photo.JpEg") = true
  /\ isImageFile exLower (strings.ToLower exLower "Photo.JpEg")
     = isImageFile exLower "Photo.JpEg".
Proof.
  split; [reflexivity|].
  exact (proj1 (classifier_ignores_ascii_case exLower "Photo.JpEg" eq_refl)).
Defined.

Lemma Join_below_root_witness :
  List.Forall real_element (map bytes ["photos"; "2024"])
  /\ real_element (bytes "img.png")
  /\ filepath.Join ["/photos/2024"; "img.png"] = "/photos/2024/img.png"
  /\ filepath.Base "/photos/2024/img.png" = "img.png".
Proof.
  assert (Hreal : forall s : string,
            s = "photos" \/ s = "2024" \/ s = "img.png" -> real_element (bytes s)).
  { intros s [->|[->| ->]]; (split; [discriminate|]);
      (split; [repeat constructor|split; discriminate]). }
  assert (H1 : List.Forall real_element (map bytes ["photos"; "2024"])).
  { constructor; [apply Hreal; auto|]. constructor; [apply Hreal; auto|]. constructor. }
  assert (H2 : real_element (bytes "img.png")) by (apply Hreal; auto).
  split; [exact H1|]. split; [exact H2|].
  exact (Join_below_root ["photos"; "2024"] "img.png" H1 H2).
Defined.
